(** * Globe visualisation: scene host, marker layer, line layer

    A shallow embedding of the three components
      - [Globe.vue]           (scene host: [initScene], [focusOnMarkers], [animate])
      - [markers.vue]         (marker layer: [createMarkers], [handleMarkerHover])
      - [animated-lines.vue]  (line layer: [createLines], [animate])
    over a small model of the scene graph of the 3D library.

    Conventions of the embedding.
      - A TypeScript [number] that holds a coordinate, an angle, a colour
        channel or a time is a binary64 floating-point number ([float]);
        [+], [-], [*], [/] and [Math.sqrt] round to nearest, ties to even,
        as IEEE 754 and ECMAScript have them.
      - ECMAScript fixes [Math.sin] and [Math.cos] at zeros, infinities and
        NaN and leaves every other value to the engine.  The model takes the
        engine's two functions as a parameter ([Math.Engine]); what is
        proved holds on every engine, or says what it asks of one.
      - A [Float32Array] holds binary32 numbers: a number written to one is
        rounded ([Math.fround]).
      - [OrbitControls.update()] is code of the 3D library that moves the
        camera; the model takes it as a parameter ([Globe.Library]).
      - An index handed in from outside (the hover index) is an integer
        ([Z]); reading an array outside its range gives [None]
        (JavaScript's [undefined]).  The index of a [forEach] round is a
        natural number.
      - The clock ([Date.now()]) is an input of the functions that read it.
      - Every scene-graph object lives in a heap and is named by its
        address, so that the marker collection and the children of the globe
        group refer to the same objects, as they do in the source.  An
        object read out of a deep [ref] of the UI framework comes as a
        reactive proxy of the object, which is another reference
        ([Vue.Ref]). *)

From Stdlib Require Import Reals Lra Lia ZArith List String Bool Floats.
From stdpp Require Import base list.
Import ListNotations.

Set Warnings "-inexact-float".
Local Open Scope float_scope.

(* ===================================================================== *)
(** ** Numbers ([Math], [%], typed arrays) *)
(* ===================================================================== *)

Module Math.

(** [Math.PI]: the binary64 number nearest to pi. *)
Definition PI : float := 3.141592653589793.

(** What an engine answers where ECMAScript says
    "an implementation-approximated Number value". *)
Class Engine : Type := {
  sin_approx : float -> float;
  cos_approx : float -> float
}.

(** [Math.sin(x)]: NaN and the zeros come back as they are, an infinity
    gives NaN, the rest is the engine's. *)
Definition sin {E : Engine} (x : float) : float :=
  if is_nan x || is_zero x then x
  else if is_infinity x then nan
  else sin_approx x.

(** [Math.cos(x)]: NaN for NaN and the infinities, 1 for the zeros, the
    rest is the engine's. *)
Definition cos {E : Engine} (x : float) : float :=
  if is_nan x || is_infinity x then nan
  else if is_zero x then 1
  else cos_approx x.

(** [Math.sqrt(x)] *)
Definition sqrt (x : float) : float := PrimFloat.sqrt x.

(** The integer [z] as a number (rounded above 2^53). *)
Definition of_Z (z : Z) : float := SF2Prim (binary_normalize prec emax z 0 false).

(** An array length or a loop index as a number. *)
Definition of_nat (n : nat) : float := of_Z (Z.of_nat n).

(** [Math.floor(x)] *)
Definition floor (x : float) : float :=
  match Prim2SF x with
  | S754_finite s m e =>
      if (0 <=? e)%Z then x
      else of_Z (Z.shiftr (cond_Zopp s (Zpos m)) (- e))
  | _ => x
  end.

(** [x % 1]: what is left of [x] after its integer part, with the sign of
    [x]; NaN for NaN and the infinities. *)
Definition rem1 (x : float) : float :=
  match Prim2SF x with
  | S754_finite s m e =>
      if (0 <=? e)%Z then (if s then neg_zero else zero)
      else SF2Prim (binary_normalize prec emax
                      (cond_Zopp s (Z.land (Zpos m) (Z.ones (- e)))) e s)
  | S754_zero _ => x
  | _ => nan
  end.

(** [Math.fround(x)]: [x] rounded to binary32, which is what a write into a
    [Float32Array] keeps. *)
Definition fround (x : float) : float :=
  match Prim2SF x with
  | S754_finite s m e => SF2Prim (binary_round 24 128 s m e)
  | _ => x
  end.

(** [x || y] on numbers: [y] stands in for a zero and for NaN. *)
Definition or_else (x y : float) : float :=
  if is_zero x || is_nan x then y else x.

End Math.

(* ===================================================================== *)
(** ** References of the UI framework *)
(* ===================================================================== *)

Module Vue.

(** A JavaScript reference to a scene-graph object: the object itself, or
    the reactive proxy the framework makes for it.  Reading or writing a
    property through either reaches the same object; [===] and
    [Array.prototype.indexOf] tell them apart. *)
Inductive Ref : Type :=
| Raw (address : nat)
| Reactive (address : nat).

Definition toRaw (r : Ref) : nat :=
  match r with Raw a | Reactive a => a end.

End Vue.

(* ===================================================================== *)
(** ** Vectors ([THREE.Vector3]) *)
(* ===================================================================== *)

Module Vector3.

Record t : Type := mk { x : float; y : float; z : float }.

(** [new THREE.Vector3()] *)
Definition zero : t := mk 0 0 0.

(** [a.add(b)] *)
Definition add (a b : t) : t := mk (x a + x b) (y a + y b) (z a + z b).

(** [new Vector3().addVectors(a, b)] *)
Definition addVectors (a b : t) : t := add a b.

(** [v.multiplyScalar(s)] *)
Definition multiplyScalar (v : t) (s : float) : t := mk (x v * s) (y v * s) (z v * s).

(** [v.divideScalar(s)] is [v.multiplyScalar(1 / s)] in the library. *)
Definition divideScalar (v : t) (s : float) : t := multiplyScalar v (1 / s).

(** [v.length()] *)
Definition length (v : t) : float := Math.sqrt (x v * x v + y v * y v + z v * z v).

(** [a.distanceTo(b)] *)
Definition distanceTo (a b : t) : float :=
  Math.sqrt ((x a - x b) * (x a - x b) + (y a - y b) * (y a - y b) + (z a - z b) * (z a - z b)).

(** [v.normalize()] is [v.divideScalar(v.length() || 1)]. *)
Definition normalize (v : t) : t :=
  divideScalar v (Math.or_else (length v) 1).

End Vector3.

Abbreviation Vec3 := Vector3.t.

(* ===================================================================== *)
(** ** The lat/lng projection (markers.vue and animated-lines.vue) *)
(* ===================================================================== *)

(** [latLngToVector3(lat, lng, radius)]; the two layers carry the same
    function, character for character. *)
Definition latLngToVector3 {E : Math.Engine} (lat lng radius : float) : Vec3 :=
  let phi := (90 - lat) * (Math.PI / 180) in
  let theta := (lng + 180) * (Math.PI / 180) in
  let x := - radius * Math.sin phi * Math.cos theta in
  let z := radius * Math.sin phi * Math.sin theta in
  let y := radius * Math.cos phi in
  Vector3.mk x y z.

(* ===================================================================== *)
(** ** The caller's data ([Location], [Connection]) *)
(* ===================================================================== *)

Record Location : Type := { name : string; lat : float; lng : float }.

Record Connection : Type := { from : string; to : string }.

(* ===================================================================== *)
(** ** Scene graph of the 3D library

    Only what the three components use: objects with a kind, a position,
    a rotation about the vertical axis and an ordered list of children;
    geometries and materials that can be disposed. *)
(* ===================================================================== *)

Module Three.
Import Vue.

Record RGBA : Type := { red : float; green : float; blue : float; alpha : float }.

Inductive Shape : Type :=
| SphereGeometry (radius : float) (widthSegments heightSegments : Z)
| BufferGeometry (points : list Vec3) (colorAttribute : option (list RGBA)) (needsUpdate : bool).

Record Geometry : Type := { shape : Shape; geometry_disposed : bool }.

Record Material : Type := {
  color : string;
  transparent : bool;
  opacity : float;
  vertexColors : bool;
  material_disposed : bool
}.

Inductive Data : Type :=
| Scene
| Group
| Mesh (geometry : Geometry) (material : Material)
| Line (geometry : Geometry) (material : Material)
| AmbientLight (light_color : string) (intensity : float)
| PointLight (light_color : string) (intensity distance : float).

(** The children array holds the objects themselves: every [add] of the
    three components passes an object it has just constructed. *)
Record Object3D : Type := {
  data : Data;
  position : Vec3;
  rotation_y : float;
  children : list nat
}.

(** Objects are JavaScript references: an address into the heap. *)
Abbreviation Heap := (list Object3D).

(** [new THREE.X(...)]: position and rotation start at zero, no children. *)
Definition new (d : Data) (h : Heap) : Heap * nat :=
  (h ++ [{| data := d; position := Vector3.zero; rotation_y := 0; children := [] |}],
   length h).

Definition set_children (cs : list nat) (o : Object3D) : Object3D :=
  {| data := data o; position := position o; rotation_y := rotation_y o; children := cs |}.

Definition set_position (p : Vec3) (o : Object3D) : Object3D :=
  {| data := data o; position := p; rotation_y := rotation_y o; children := children o |}.

Definition set_rotation_y (r : float) (o : Object3D) : Object3D :=
  {| data := data o; position := position o; rotation_y := r; children := children o |}.

Definition set_data (d : Data) (o : Object3D) : Object3D :=
  {| data := d; position := position o; rotation_y := rotation_y o; children := children o |}.

(** [children.splice(index, 1)] at the first occurrence of [c]. *)
Fixpoint remove_first (c : nat) (l : list nat) : list nat :=
  match l with
  | [] => []
  | x :: l' => if Nat.eqb x c then l' else x :: remove_first c l'
  end.

(** [parent.add(child)] for a child that has no parent yet. *)
Definition add (parent child : nat) (h : Heap) : Heap :=
  alter (fun o => set_children (children o ++ [child]) o) parent h.

(** [children.indexOf(object) !== -1]: the array is searched for the very
    reference it is given.  It holds objects, so a reactive proxy is not
    found in it, whichever object the proxy stands for. *)
Definition found_in (cs : list nat) (object : Ref) : bool :=
  match object with
  | Raw c => existsb (Nat.eqb c) cs
  | Reactive _ => false
  end.

(** [parent.remove(object)]:
    [const index = this.children.indexOf(object);
     if (index !== -1) { ...; this.children.splice(index, 1); ... }] *)
Definition remove (parent : nat) (object : Ref) (h : Heap) : Heap :=
  alter (fun o =>
           if found_in (children o) object
           then set_children (remove_first (toRaw object) (children o)) o
           else o) parent h.

(** [o.position.copy(p)] *)
Definition position_copy (o : nat) (p : Vec3) (h : Heap) : Heap :=
  alter (set_position p) o h.

(** [child instanceof THREE.Group] *)
Definition instanceof_Group (h : Heap) (c : nat) : bool :=
  match h !! c with
  | Some {| data := Group |} => true
  | _ => false
  end.

(** [child instanceof THREE.Mesh] *)
Definition instanceof_Mesh (o : Object3D) : bool :=
  match data o with Mesh _ _ => true | _ => false end.

Definition childrenOf (h : Heap) (o : nat) : list nat :=
  match h !! o with Some ob => children ob | None => [] end.

(** [scene.children.find((child) => child instanceof THREE.Group)] *)
Definition findGlobeGroup (h : Heap) (scene : nat) : option nat :=
  List.find (instanceof_Group h) (childrenOf h scene).

Definition dispose_geometry (g : Geometry) : Geometry :=
  {| shape := shape g; geometry_disposed := true |}.

Definition dispose_material (m : Material) : Material :=
  {| color := color m; transparent := transparent m; opacity := opacity m;
     vertexColors := vertexColors m; material_disposed := true |}.

(** [material.color.set(c)] *)
Definition set_color (c : string) (m : Material) : Material :=
  {| color := c; transparent := transparent m; opacity := opacity m;
     vertexColors := vertexColors m; material_disposed := material_disposed m |}.

Definition set_opacity (a : float) (m : Material) : Material :=
  {| color := color m; transparent := transparent m; opacity := a;
     vertexColors := vertexColors m; material_disposed := material_disposed m |}.

(** The callback of the markers' sweep:
    [if (child instanceof THREE.Mesh) { child.geometry.dispose(); child.material.dispose(); }] *)
Definition dispose_if_mesh (o : nat) (h : Heap) : Heap :=
  alter (fun ob => match data ob with
                   | Mesh g m => set_data (Mesh (dispose_geometry g) (dispose_material m)) ob
                   | _ => ob
                   end) o h.

(** [line.geometry.dispose(); line.material.dispose()] *)
Definition dispose_line (o : nat) (h : Heap) : Heap :=
  alter (fun ob => match data ob with
                   | Line g m => set_data (Line (dispose_geometry g) (dispose_material m)) ob
                   | _ => ob
                   end) o h.

(** [o.traverse(callback)]: the callback on [o], then on every descendant,
    depth first.  [depth] bounds the recursion; a tree of objects in a heap
    of [n] objects is exhausted at depth [n]. *)
Fixpoint traverse (depth : nat) (callback : nat -> Heap -> Heap) (o : nat) (h : Heap) : Heap :=
  match depth with
  | O => h
  | S d =>
      let h1 := callback o h in
      fold_left (fun h' c => traverse d callback c h') (childrenOf h1 o) h1
  end.

Definition disposed (h : Heap) (o : nat) : Prop :=
  match h !! o with
  | Some {| data := Mesh g m |} | Some {| data := Line g m |} =>
      geometry_disposed g = true /\ material_disposed m = true
  | _ => False
  end.

(** [new THREE.BufferGeometry().setFromPoints(points)]: the position
    attribute is a [Float32BufferAttribute] filled with
    [point.x, point.y, point.z || 0]. *)
Definition setFromPoints (points : list Vec3) : list Vec3 :=
  map (fun p => Vector3.mk (Math.fround (Vector3.x p)) (Math.fround (Vector3.y p))
                           (Math.fround (Math.or_else (Vector3.z p) 0)))
      points.

End Three.

(** [array[index]] for a numeric index: [undefined] outside the array. *)
Definition array_get {A : Type} (l : list A) (index : Z) : option A :=
  if (0 <=? index)%Z then l !! Z.to_nat index else None.

(** What a call does with the caller: it returns, or it throws a
    [TypeError] on the way (the state reached so far is kept). *)
Inductive Outcome (A : Type) : Type :=
| Returned (a : A)
| Threw (a : A).
Arguments Returned {A} a.
Arguments Threw {A} a.

(* ===================================================================== *)
(** ** Marker layer (markers.vue) *)
(* ===================================================================== *)

Module Markers.
Import Vue Three.

(** [markers] and [hoveredMarker].  [markers] is a deep [ref]: the array
    keeps the objects pushed into it and hands out reactive proxies of
    them. *)
Record State : Type := {
  markers : list nat;
  hoveredMarker : option Z
}.

Definition initial : State := {| markers := []; hoveredMarker := None |}.

(** One round of the sweep [markers.value.forEach((marker) => ...)]:
    [globeGroup.remove(marker); marker.traverse(...)], where [marker] is
    the reactive proxy the deep ref hands out. *)
Definition clear_marker (globeGroup : nat) (h : Heap) (marker : nat) : Heap :=
  let h := remove globeGroup (Reactive marker) h in
  traverse (length h) dispose_if_mesh (toRaw (Reactive marker)) h.

Definition marker_geometry : Geometry :=
  {| shape := SphereGeometry 0.02 14 14; geometry_disposed := false |}.

Definition marker_material : Material :=
  {| color := "#d5aa0f"; transparent := true; opacity := 0.9;
     vertexColors := false; material_disposed := false |}.

Section WithEngine.
Context {E : Math.Engine}.

(** One round of [props.locations.forEach((location, index) => ...)];
    [marker] is the constant of the round, the object itself. *)
Definition create_marker (globeGroup : nat) (acc : Heap * list nat) (location : Location)
  : Heap * list nat :=
  let '(h, ms) := acc in
  let position := latLngToVector3 (lat location) (lng location) 0.92 in
  let '(h, marker) := new Group h in
  let '(h, sphere) := new (Mesh marker_geometry marker_material) h in
  let h := add marker sphere h in
  let '(h, light) := new (PointLight "#d5aa0f" 0.1 0.08) h in
  let h := add marker light h in
  let h := position_copy marker position h in
  let h := add globeGroup marker h in
  (h, ms ++ [marker]).

(** [createMarkers()] *)
Definition createMarkers (locations : list Location) (scene : option nat)
    (h : Heap) (st : State) : Heap * State :=
  match scene with
  | None => (h, st)
  | Some s =>
      match findGlobeGroup h s with
      | None => (h, st)
      | Some globeGroup =>
          let h := fold_left (clear_marker globeGroup) (markers st) h in
          let '(h, ms) := fold_left (create_marker globeGroup) locations (h, []) in
          (h, {| markers := ms; hoveredMarker := hoveredMarker st |})
      end
  end.

End WithEngine.

(** [onUnmounted]: the same sweep, nothing rebuilt. *)
Definition onUnmounted (scene : option nat) (h : Heap) (st : State) : Heap * State :=
  match scene with
  | None => (h, st)
  | Some s =>
      match findGlobeGroup h s with
      | None => (h, st)
      | Some globeGroup =>
          (fold_left (clear_marker globeGroup) (markers st) h,
           {| markers := []; hoveredMarker := hoveredMarker st |})
      end
  end.

(** [const sphere = marker.children[0]; sphere.material.color.set(c)]:
    a [TypeError] ([None]) when there is no first child or it has no
    material. *)
Definition recolor (marker : nat) (c : string) (h : Heap) : option Heap :=
  match childrenOf h marker with
  | sphere :: _ =>
      match h !! sphere with
      | Some {| data := Mesh g m |} =>
          Some (alter (set_data (Mesh g (set_color c m))) sphere h)
      | Some {| data := Line g m |} =>
          Some (alter (set_data (Line g (set_color c m))) sphere h)
      | _ => None
      end
  | [] => None
  end.

(** The state [handleMarkerHover] reads and writes: the heap, the layer's
    own refs and [document.body.style.cursor]. *)
Record Hover : Type := {
  heap : Heap;
  state : State;
  cursor : string
}.

(** [handleMarkerHover(index, isHovered)] *)
Definition handleMarkerHover (index : Z) (isHovered : bool) (w : Hover) : Outcome Hover :=
  if isHovered then
    let st := {| markers := markers (state w); hoveredMarker := Some index |} in
    let cur := "pointer"%string in
    match array_get (markers st) index with
    | Some marker =>
        match recolor marker "#FFC857" (heap w) with
        | Some h => Returned {| heap := h; state := st; cursor := cur |}
        | None => Threw {| heap := heap w; state := st; cursor := cur |}
        end
    | None => Returned {| heap := heap w; state := st; cursor := cur |}
    end
  else
    let st := {| markers := markers (state w); hoveredMarker := None |} in
    let cur := "auto"%string in
    match array_get (markers st) index with
    | Some marker =>
        match recolor marker "#d5aa0f" (heap w) with
        | Some h => Returned {| heap := h; state := st; cursor := cur |}
        | None => Threw {| heap := heap w; state := st; cursor := cur |}
        end
    | None => Returned {| heap := heap w; state := st; cursor := cur |}
    end.

(** The colour of the sphere of a marker, [marker.children[0].material.color]. *)
Definition sphere_color (h : Heap) (marker : nat) : option string :=
  match childrenOf h marker with
  | sphere :: _ =>
      match h !! sphere with
      | Some {| data := Mesh _ m |} => Some (color m)
      | _ => None
      end
  | [] => None
  end.

(** Where a marker sits, [marker.position]. *)
Definition position_of (h : Heap) (o : nat) : option Vec3 :=
  position <$> h !! o.

End Markers.

(* ===================================================================== *)
(** ** The browser's animation frames *)
(* ===================================================================== *)

Module Browser.

(** The two functions the components hand to [requestAnimationFrame]. *)
Inductive Callback : Type := GlobeAnimate | LinesAnimate.

Definition Callback_eqb (a b : Callback) : bool :=
  match a, b with
  | GlobeAnimate, GlobeAnimate | LinesAnimate, LinesAnimate => true
  | _, _ => false
  end.

(** The list of callbacks waiting for the next frame, each under the
    handle [requestAnimationFrame] returned for it. *)
Record Frames : Type := {
  pending : list (nat * Callback);
  next_handle : nat
}.

(** Handles are non-zero integers. *)
Definition no_frames : Frames := {| pending := []; next_handle := 1 |}.

Definition requestAnimationFrame (cb : Callback) (fr : Frames) : Frames * nat :=
  ({| pending := pending fr ++ [(next_handle fr, cb)]; next_handle := S (next_handle fr) |},
   next_handle fr).

Definition cancelAnimationFrame (handle : nat) (fr : Frames) : Frames :=
  {| pending := List.filter (fun p => negb (Nat.eqb (fst p) handle)) (pending fr);
     next_handle := next_handle fr |}.

(** How many frame callbacks of one function are waiting: the number of
    loops of that function that are alive. *)
Definition loops (cb : Callback) (fr : Frames) : nat :=
  length (List.filter (fun p => Callback_eqb (snd p) cb) (pending fr)).

End Browser.

(** [array.forEach((x, index) => ...)], threading the state through. *)
Fixpoint forEach_from {A St : Type} (f : St -> A -> nat -> St) (l : list A) (index : nat) (s : St) : St :=
  match l with
  | [] => s
  | x :: l' => forEach_from f l' (S index) (f s x index)
  end.

Definition forEach {A St : Type} (f : St -> A -> nat -> St) (l : list A) (s : St) : St :=
  forEach_from f l 0 s.

(** [array[index] = v] on a JavaScript array: writing past the end extends
    the array, leaving holes. *)
Fixpoint array_set {A : Type} (l : list (option A)) (index : nat) (v : A) : list (option A) :=
  match index, l with
  | O, [] => [Some v]
  | O, _ :: l' => Some v :: l'
  | S i, [] => None :: array_set [] i v
  | S i, x :: l' => x :: array_set l' i v
  end.

(* ===================================================================== *)
(** ** Line layer (animated-lines.vue) *)
(* ===================================================================== *)

Module Lines.
Import Vue Three Browser.

(** [lines], [animationFrameId] and [lineProgress].  [lines] is a deep
    [ref], like the markers' collection. *)
Record State : Type := {
  lines : list nat;
  animationFrameId : option nat;
  lineProgress : list (option float)
}.

Definition initial : State :=
  {| lines := []; animationFrameId := None; lineProgress := [] |}.

(** [QuadraticBezier(t, p0, p1, p2)] of the library's interpolations. *)
Definition QuadraticBezier (t p0 p1 p2 : float) : float :=
  (1 - t) * (1 - t) * p0 + 2 * (1 - t) * t * p1 + t * t * p2.

(** [new THREE.QuadraticBezierCurve3(v0, v1, v2).getPoint(t)] *)
Definition getPoint (v0 v1 v2 : Vec3) (t : float) : Vec3 :=
  Vector3.mk
    (QuadraticBezier t (Vector3.x v0) (Vector3.x v1) (Vector3.x v2))
    (QuadraticBezier t (Vector3.y v0) (Vector3.y v1) (Vector3.y v2))
    (QuadraticBezier t (Vector3.z v0) (Vector3.z v1) (Vector3.z v2)).

(** [curve.getPoints(divisions)]: the points at [d / divisions] for
    [d = 0 .. divisions]. *)
Definition getPoints (v0 v1 v2 : Vec3) (divisions : nat) : list Vec3 :=
  map (fun d => getPoint v0 v1 v2 (Math.of_nat d / Math.of_nat divisions))
      (seq 0 (S divisions)).

(** The colour buffer as built, a [Float32Array]: gold, invisible, on
    every vertex. *)
Definition initial_colors (n : nat) : list RGBA :=
  repeat {| red := Math.fround 0.835; green := Math.fround 0.667;
            blue := Math.fround 0.059; alpha := Math.fround 0 |} n.

Definition line_material : Material :=
  {| color := "#d5aa0f"; transparent := true; opacity := 0.8;
     vertexColors := true; material_disposed := false |}.

(** [props.locations.find((loc) => loc.name === n)] *)
Definition find_location (locations : list Location) (n : string) : option Location :=
  List.find (fun loc => String.eqb (name loc) n) locations.

(** One round of the sweep [lines.value.forEach((line) => ...)], [line]
    being the reactive proxy the deep ref hands out. *)
Definition clear_line (globeGroup : nat) (h : Heap) (line : nat) : Heap :=
  let h := remove globeGroup (Reactive line) h in
  dispose_line (toRaw (Reactive line)) h.

(** The colour loop of [animate]: vertex [i] becomes white, visible up to
    [visiblePoints].  A write past the end of the buffer is dropped, as in a
    typed array. *)
Definition reveal (totalPoints : nat) (visiblePoints : float) (colors : list RGBA) : list RGBA :=
  fold_left
    (fun cs i =>
       let isVisible := Math.of_nat i <=? visiblePoints in
       let a := if isVisible then 1 else 0 in
       <[i := {| red := Math.fround 1; green := Math.fround 1; blue := Math.fround 1;
                 alpha := Math.fround a |}]> cs)
    (seq 0 totalPoints) colors.

(** What the layer reads and writes: the heap, its own refs and the
    browser's frame callbacks. *)
Record World : Type := {
  heap : Heap;
  state : State;
  frames : Frames
}.

(** The sampled points of an arc, [line.geometry.attributes.position]. *)
Definition points_of (h : Heap) (line : nat) : option (list Vec3) :=
  match h !! line with
  | Some {| data := Line {| shape := BufferGeometry points _ _ |} _ |} => Some points
  | _ => None
  end.

Section WithEngine.
Context {E : Math.Engine}.

(** The curve between two locations, sampled. *)
Definition curve_points (fromLocation toLocation : Location) : list Vec3 :=
  let start := latLngToVector3 (lat fromLocation) (lng fromLocation) 0.92 in
  let end_ := latLngToVector3 (lat toLocation) (lng toLocation) 0.92 in
  let mid := Vector3.multiplyScalar (Vector3.addVectors start end_) 0.5 in
  let distance := Vector3.distanceTo start end_ in
  let mid := Vector3.multiplyScalar (Vector3.normalize mid) (0.92 + distance * 0.15) in
  getPoints start mid end_ 50.

(** The sampled arc as the geometry holds it. *)
Definition arc_points (fromLocation toLocation : Location) : list Vec3 :=
  setFromPoints (curve_points fromLocation toLocation).

Definition line_data (fromLocation toLocation : Location) : Data :=
  let points := curve_points fromLocation toLocation in
  Line {| shape := BufferGeometry (setFromPoints points)
                     (Some (initial_colors (length points))) false;
          geometry_disposed := false |}
       line_material.

(** One round of [props.connections.forEach((connection, index) => ...)]:
    the heap, [lines.value] and [lineProgress.value] go through. *)
Definition create_line (locations : list Location) (globeGroup : nat)
    (acc : Heap * list nat * list (option float)) (connection : Connection) (index : nat)
  : Heap * list nat * list (option float) :=
  let '(h, ls, progress) := acc in
  match find_location locations (from connection), find_location locations (to connection) with
  | Some fromLocation, Some toLocation =>
      let '(h, line) := new (line_data fromLocation toLocation) h in
      let h := add globeGroup line h in
      (h, ls ++ [line], array_set progress index 0)
  | _, _ => acc
  end.

(** One round of [lines.value.forEach((line, index) => ...)] in [animate].
    [lines.value] is typed [THREE.Line[]]: another object is left alone. *)
Definition animate_line (time : float) (acc : Heap * list (option float)) (line index : nat)
  : Heap * list (option float) :=
  let '(h, progress) := acc in
  let p := Math.rem1 (time * 0.5 + Math.of_nat index * 0.2) in
  let progress := array_set progress index p in
  match h !! line with
  | Some {| data := Line {| shape := BufferGeometry points colors dirty; geometry_disposed := gd |} m |} =>
      let totalPoints := length points in
      let visiblePoints := Math.floor (Math.of_nat totalPoints * p) in
      let m := set_opacity (Math.sin (time + Math.of_nat index * 0.2) * 0.3 + 0.7) m in
      let g :=
        match colors with
        | Some cs => BufferGeometry points (Some (reveal totalPoints visiblePoints cs)) true
        | None => BufferGeometry points None dirty
        end in
      (alter (set_data (Line {| shape := g; geometry_disposed := gd |} m)) line h, progress)
  | _ => (h, progress)
  end.

(** [animate()], run at the clock reading [now] ([Date.now()]). *)
Definition animate (now : float) (w : World) : World :=
  let time := now * 0.001 in
  let '(h, progress) :=
    forEach (animate_line time) (lines (state w)) (heap w, lineProgress (state w)) in
  let '(fr, handle) := requestAnimationFrame LinesAnimate (frames w) in
  {| heap := h;
     state := {| lines := lines (state w); animationFrameId := Some handle;
                 lineProgress := progress |};
     frames := fr |}.

(** [createLines()], run at the clock reading [now]. *)
Definition createLines (now : float) (locations : list Location) (connections : list Connection)
    (scene : option nat) (w : World) : World :=
  match scene with
  | None => w
  | Some s =>
      match findGlobeGroup (heap w) s with
      | None => w
      | Some globeGroup =>
          let h := fold_left (clear_line globeGroup) (lines (state w)) (heap w) in
          let '(h, ls, progress) :=
            forEach (create_line locations globeGroup) connections
                    (h, [], lineProgress (state w)) in
          animate now
            {| heap := h;
               state := {| lines := ls; animationFrameId := animationFrameId (state w);
                           lineProgress := progress |};
               frames := frames w |}
      end
  end.

End WithEngine.

(** [onUnmounted] *)
Definition onUnmounted (scene : option nat) (w : World) : World :=
  match scene with
  | None => w
  | Some s =>
      match findGlobeGroup (heap w) s with
      | None => w
      | Some globeGroup =>
          let fr :=
            match animationFrameId (state w) with
            | Some handle =>
                if Nat.eqb handle 0 then frames w else cancelAnimationFrame handle (frames w)
            | None => frames w
            end in
          {| heap := fold_left (clear_line globeGroup) (lines (state w)) (heap w);
             state := {| lines := []; animationFrameId := animationFrameId (state w);
                         lineProgress := lineProgress (state w) |};
             frames := fr |}
      end
  end.

End Lines.
(* ===================================================================== *)
(** ** Scene host (Globe.vue) *)
(* ===================================================================== *)

Module Globe.
Import Three Browser.

Record Camera : Type := {
  fov : float; aspect : float; near : float; far : float;
  camera_position : Vec3;
  (** the point of the last [camera.lookAt(...)], if any *)
  looking_at : option Vec3
}.

Record Renderer : Type := {
  size : float * float;
  rendered : nat;              (** calls of [render] so far *)
  renderer_disposed : bool
}.

(** The orbit-drag controller: its settings, its target and [orbit], the
    numbers the library keeps for itself between two calls. *)
Record Controls : Type := {
  enableDamping : bool; dampingFactor : float; rotateSpeed : float;
  minDistance : float; maxDistance : float; enablePan : bool;
  target : Vec3;
  orbit : list float;
  controls_disposed : bool
}.

(** [controls.update()] is the library's: it reads the camera and the
    controller and may move both. *)
Class Library : Type := {
  update : Camera -> Controls -> Camera * Controls
}.

(** The statement [initScene] runs next.  [Awaiting] is the suspension at
    [await textureLoader.loadAsync(...)]; [Failed] is a rejected load. *)
Inductive Pc : Type :=
| Unmounted
| L72_scene | L75_camera | L84_renderer | L96_group | L97_add_group | L101_load
| Awaiting
| L104_sphere | L116_ambient | L119_point | L124_controls | L146_render
| L151_timeout | L154_animate
| Finished
| Failed.

(** The refs of the component. *)
Record State : Type := {
  containerRef : option (float * float);        (** client width and height *)
  scene : option nat;
  camera : option Camera;
  renderer : option Renderer;
  sphere : option nat;
  earthTexture : option bool;           (** the texture, with its disposed flag *)
  globeGroup : option nat;
  controls : option Controls;
  isDragging : bool;
  animationFrameId : option nat;
  focus_timer : bool;                   (** [setTimeout(focusOnMarkers, 100)] pending *)
  pc : Pc
}.

Definition initial (container : option (float * float)) : State :=
  {| containerRef := container; scene := None; camera := None; renderer := None;
     sphere := None; earthTexture := None; globeGroup := None; controls := None;
     isDragging := false; animationFrameId := None; focus_timer := false;
     pc := Unmounted |}.

Definition set_pc (p : Pc) (st : State) : State :=
  {| containerRef := containerRef st; scene := scene st; camera := camera st;
     renderer := renderer st; sphere := sphere st; earthTexture := earthTexture st;
     globeGroup := globeGroup st; controls := controls st; isDragging := isDragging st;
     animationFrameId := animationFrameId st; focus_timer := focus_timer st; pc := p |}.

Definition set_scene (s : option nat) (st : State) : State :=
  {| containerRef := containerRef st; scene := s; camera := camera st;
     renderer := renderer st; sphere := sphere st; earthTexture := earthTexture st;
     globeGroup := globeGroup st; controls := controls st; isDragging := isDragging st;
     animationFrameId := animationFrameId st; focus_timer := focus_timer st; pc := pc st |}.

Definition set_camera (c : option Camera) (st : State) : State :=
  {| containerRef := containerRef st; scene := scene st; camera := c;
     renderer := renderer st; sphere := sphere st; earthTexture := earthTexture st;
     globeGroup := globeGroup st; controls := controls st; isDragging := isDragging st;
     animationFrameId := animationFrameId st; focus_timer := focus_timer st; pc := pc st |}.

Definition set_renderer (r : option Renderer) (st : State) : State :=
  {| containerRef := containerRef st; scene := scene st; camera := camera st;
     renderer := r; sphere := sphere st; earthTexture := earthTexture st;
     globeGroup := globeGroup st; controls := controls st; isDragging := isDragging st;
     animationFrameId := animationFrameId st; focus_timer := focus_timer st; pc := pc st |}.

Definition set_sphere (s : option nat) (st : State) : State :=
  {| containerRef := containerRef st; scene := scene st; camera := camera st;
     renderer := renderer st; sphere := s; earthTexture := earthTexture st;
     globeGroup := globeGroup st; controls := controls st; isDragging := isDragging st;
     animationFrameId := animationFrameId st; focus_timer := focus_timer st; pc := pc st |}.

Definition set_earthTexture (t : option bool) (st : State) : State :=
  {| containerRef := containerRef st; scene := scene st; camera := camera st;
     renderer := renderer st; sphere := sphere st; earthTexture := t;
     globeGroup := globeGroup st; controls := controls st; isDragging := isDragging st;
     animationFrameId := animationFrameId st; focus_timer := focus_timer st; pc := pc st |}.

Definition set_globeGroup (g : option nat) (st : State) : State :=
  {| containerRef := containerRef st; scene := scene st; camera := camera st;
     renderer := renderer st; sphere := sphere st; earthTexture := earthTexture st;
     globeGroup := g; controls := controls st; isDragging := isDragging st;
     animationFrameId := animationFrameId st; focus_timer := focus_timer st; pc := pc st |}.

Definition set_controls (c : option Controls) (st : State) : State :=
  {| containerRef := containerRef st; scene := scene st; camera := camera st;
     renderer := renderer st; sphere := sphere st; earthTexture := earthTexture st;
     globeGroup := globeGroup st; controls := c; isDragging := isDragging st;
     animationFrameId := animationFrameId st; focus_timer := focus_timer st; pc := pc st |}.

Definition set_isDragging (b : bool) (st : State) : State :=
  {| containerRef := containerRef st; scene := scene st; camera := camera st;
     renderer := renderer st; sphere := sphere st; earthTexture := earthTexture st;
     globeGroup := globeGroup st; controls := controls st; isDragging := b;
     animationFrameId := animationFrameId st; focus_timer := focus_timer st; pc := pc st |}.

Definition set_animationFrameId (a : option nat) (st : State) : State :=
  {| containerRef := containerRef st; scene := scene st; camera := camera st;
     renderer := renderer st; sphere := sphere st; earthTexture := earthTexture st;
     globeGroup := globeGroup st; controls := controls st; isDragging := isDragging st;
     animationFrameId := a; focus_timer := focus_timer st; pc := pc st |}.

Definition set_focus_timer (b : bool) (st : State) : State :=
  {| containerRef := containerRef st; scene := scene st; camera := camera st;
     renderer := renderer st; sphere := sphere st; earthTexture := earthTexture st;
     globeGroup := globeGroup st; controls := controls st; isDragging := isDragging st;
     animationFrameId := animationFrameId st; focus_timer := b; pc := pc st |}.

(** [renderer.render(scene, camera)] *)
Definition render (r : Renderer) : Renderer :=
  {| size := size r; rendered := S (rendered r); renderer_disposed := renderer_disposed r |}.

(** [controls.target.set(x, y, z)] *)
Definition target_set (p : Vec3) (c : Controls) : Controls :=
  {| enableDamping := enableDamping c; dampingFactor := dampingFactor c;
     rotateSpeed := rotateSpeed c; minDistance := minDistance c;
     maxDistance := maxDistance c; enablePan := enablePan c;
     target := p; orbit := orbit c;
     controls_disposed := controls_disposed c |}.

(** [camera.position.copy(p); camera.lookAt(q)] *)
Definition place (p q : Vec3) (cam : Camera) : Camera :=
  {| fov := fov cam; aspect := aspect cam; near := near cam; far := far cam;
     camera_position := p; looking_at := Some q |}.

Section WithPlatform.
Context {E : Math.Engine} {L : Library}.

(** [controls.update()] on the refs of the component.  The controller is
    built on the camera (line 125), so there is a camera whenever there is
    a controller. *)
Definition update_controls (st : State) : State :=
  match camera st, controls st with
  | Some cam, Some c =>
      let '(cam, c) := update cam c in
      set_controls (Some c) (set_camera (Some cam) st)
  | _, _ => st
  end.

(** The direction of a location, the unit-radius projection written out
    in [focusOnMarkers]. *)
Definition direction (location : Location) : Vec3 :=
  let phi := (90 - lat location) * (Math.PI / 180) in
  let theta := (lng location + 180) * (Math.PI / 180) in
  Vector3.mk (- Math.sin phi * Math.cos theta) (Math.cos phi) (Math.sin phi * Math.sin theta).

(** [center.multiplyScalar(2.74)], where the camera is put. *)
Definition focus_position (locations : list Location) : Vec3 :=
  let positions := map direction locations in
  let center :=
    Vector3.divideScalar (fold_left Vector3.add positions Vector3.zero)
                         (Math.of_nat (length positions)) in
  Vector3.multiplyScalar center 2.74.

(** [focusOnMarkers()] *)
Definition focusOnMarkers (locations : list Location) (st : State) : State :=
  match locations, controls st with
  | [], _ => st
  | _, None => st
  | _ :: _, Some c =>
      let st :=
        match camera st with
        | Some cam =>
            set_camera (Some (place (focus_position locations) (Vector3.mk 0 0 0) cam)) st
        | None => st
        end in
      update_controls (set_controls (Some (target_set (Vector3.mk 0 0 0) c)) st)
  end.

(** What the host shares with the rest of the page. *)
Record World : Type := {
  heap : Heap;
  state : State;
  frames : Frames
}.

(** [animate()], the render loop. *)
Definition animate (w : World) : World :=
  let st := state w in
  match scene st, camera st, renderer st, globeGroup st with
  | Some _, Some _, Some r, Some g =>
      let '(fr, handle) := requestAnimationFrame GlobeAnimate (frames w) in
      let st := set_animationFrameId (Some handle) st in
      let st := update_controls st in
      let h :=
        if isDragging st then heap w
        else alter (fun o => set_rotation_y (rotation_y o + 0.0015) o) g (heap w) in
      {| heap := h; state := set_renderer (Some (render r)) st; frames := fr |}
  | _, _, _, _ => w
  end.

Definition sphere_geometry : Geometry :=
  {| shape := SphereGeometry 0.85 32 32; geometry_disposed := false |}.

(** The phong material of the globe; the texture maps are not modelled. *)
Definition sphere_material : Material :=
  {| color := "#ffffff"; transparent := false; opacity := 1;
     vertexColors := false; material_disposed := false |}.

Definition new_controls : Controls :=
  {| enableDamping := true; dampingFactor := 0.05; rotateSpeed := 0.5;
     minDistance := 2; maxDistance := 5; enablePan := false;
     target := Vector3.zero; orbit := []; controls_disposed := false |}.

(** One statement of [initScene]; [Unmounted] is the call itself with its
    guard, [Awaiting] is resumed by the loaded texture. *)
Definition initScene_step (w : World) : World :=
  let st := state w in
  let h := heap w in
  let go p h st := {| heap := h; state := set_pc p st; frames := frames w |} in
  match pc st with
  | Unmounted =>
      match containerRef st with
      | None => go Finished h st
      | Some _ => go L72_scene h st
      end
  | L72_scene =>
      let '(h, s) := new Scene h in
      go L75_camera h (set_scene (Some s) st)
  | L75_camera =>
      let a := match containerRef st with Some (cw, ch) => cw / ch | None => 0 end in
      go L84_renderer h
         (set_camera (Some {| fov := 45; aspect := a; near := 0.1; far := 1000;
                              camera_position := Vector3.mk 0 0 2.5;
                              looking_at := None |}) st)
  | L84_renderer =>
      let sz := match containerRef st with Some sz => sz | None => (0, 0) end in
      go L96_group h
         (set_renderer (Some {| size := sz; rendered := 0; renderer_disposed := false |}) st)
  | L96_group =>
      let '(h, g) := new Group h in
      go L97_add_group h (set_globeGroup (Some g) st)
  | L97_add_group =>
      match scene st, globeGroup st with
      | Some s, Some g => go L101_load (add s g h) st
      | _, _ => go L101_load h st
      end
  | L101_load => go Awaiting h st
  | Awaiting => go L104_sphere h (set_earthTexture (Some false) st)
  | L104_sphere =>
      let '(h, sp) := new (Mesh sphere_geometry sphere_material) h in
      let h := match globeGroup st with Some g => add g sp h | None => h end in
      go L116_ambient h (set_sphere (Some sp) st)
  | L116_ambient =>
      let '(h, l) := new (AmbientLight "0xffffff" 0.5) h in
      let h := match scene st with Some s => add s l h | None => h end in
      go L119_point h st
  | L119_point =>
      let '(h, l) := new (PointLight "0xffffff" 1 0) h in
      let h := position_copy l (Vector3.mk 5 3 5) h in
      let h := match scene st with Some s => add s l h | None => h end in
      go L124_controls h st
  | L124_controls =>
      match camera st, renderer st with
      | Some _, Some _ => go L146_render h (set_controls (Some new_controls) st)
      | _, _ => go L146_render h st
      end
  | L146_render =>
      match scene st, camera st, renderer st with
      | Some _, Some _, Some r => go L151_timeout h (set_renderer (Some (render r)) st)
      | _, _, _ => go L151_timeout h st
      end
  | L151_timeout => go L154_animate h (set_focus_timer true st)
  | L154_animate =>
      let w := animate w in
      {| heap := heap w; state := set_pc Finished (state w); frames := frames w |}
  | Finished => w
  | Failed => w
  end.

End WithPlatform.

(** The host is between two callbacks: other code may run. *)
Definition suspended (p : Pc) : bool :=
  match p with
  | Unmounted | Awaiting | Finished | Failed => true
  | _ => false
  end.

(** [handleResize()], with the container at its current client size.
    [camera.updateProjectionMatrix()] recomputes a matrix the model does
    not hold. *)
Definition handleResize (st : State) : State :=
  match containerRef st, camera st, renderer st with
  | Some (clientWidth, clientHeight), Some cam, Some r =>
      let st :=
        set_camera
          (Some {| fov := fov cam; aspect := clientWidth / clientHeight;
                   near := near cam; far := far cam;
                   camera_position := camera_position cam;
                   looking_at := looking_at cam |}) st in
      set_renderer
        (Some {| size := (clientWidth, clientHeight); rendered := rendered r;
                 renderer_disposed := renderer_disposed r |}) st
  | _, _, _ => st
  end.

(** The browser lays the container out anew. *)
Definition set_containerRef (c : option (float * float)) (st : State) : State :=
  {| containerRef := c; scene := scene st; camera := camera st;
     renderer := renderer st; sphere := sphere st; earthTexture := earthTexture st;
     globeGroup := globeGroup st; controls := controls st; isDragging := isDragging st;
     animationFrameId := animationFrameId st; focus_timer := focus_timer st; pc := pc st |}.

(** [controls.dispose()] *)
Definition dispose_controls (c : Controls) : Controls :=
  {| enableDamping := enableDamping c; dampingFactor := dampingFactor c;
     rotateSpeed := rotateSpeed c; minDistance := minDistance c;
     maxDistance := maxDistance c; enablePan := enablePan c;
     target := target c; orbit := orbit c; controls_disposed := true |}.

(** [renderer.dispose()] *)
Definition dispose_renderer (r : Renderer) : Renderer :=
  {| size := size r; rendered := rendered r; renderer_disposed := true |}.

(** [onUnmounted]: the frame stored in [animationFrameId] is cancelled
    (nothing happens while it is still unset); controller, renderer and
    texture are disposed; so are the geometry and the material of the
    sphere.  The resize listener is not part of the model. *)
Definition onUnmounted (w : World) : World :=
  let st := state w in
  let fr :=
    match animationFrameId st with
    | Some handle => cancelAnimationFrame handle (frames w)
    | None => frames w
    end in
  let st := set_controls (dispose_controls <$> controls st) st in
  let st := set_renderer (dispose_renderer <$> renderer st) st in
  let st := set_earthTexture ((fun _ => true) <$> earthTexture st) st in
  let h :=
    match sphere st with
    | Some sp => dispose_if_mesh sp (heap w)
    | None => heap w
    end in
  {| heap := h; state := st; frames := fr |}.

End Globe.

(* ===================================================================== *)
(** ** The page: the three components on one event loop *)
(* ===================================================================== *)

Module Page.
Import Three Browser.

Record System : Type := {
  heap : Heap;
  host : Globe.State;
  markers : Markers.State;
  lines : Lines.State;
  frames : Frames;
  cursor : string;
  locations : list Location;
  connections : list Connection
}.

(** Before anything is mounted.  The children's immediate watchers have
    run on an absent scene and built nothing. *)
Definition initial (container : option (float * float)) (locations : list Location)
    (connections : list Connection) : System :=
  {| heap := []; host := Globe.initial container; markers := Markers.initial;
     lines := Lines.initial; frames := no_frames; cursor := "auto";
     locations := locations; connections := connections |}.

Definition with_host (w : System) (g : Globe.World) : System :=
  {| heap := Globe.heap g; host := Globe.state g; markers := markers w; lines := lines w;
     frames := Globe.frames g; cursor := cursor w;
     locations := locations w; connections := connections w |}.

Definition host_world (w : System) : Globe.World :=
  {| Globe.heap := heap w; Globe.state := host w; Globe.frames := frames w |}.

Definition with_lines (w : System) (l : Lines.World) : System :=
  {| heap := Lines.heap l; host := host w; markers := markers w; lines := Lines.state l;
     frames := Lines.frames l; cursor := cursor w;
     locations := locations w; connections := connections w |}.

Definition lines_world (w : System) : Lines.World :=
  {| Lines.heap := heap w; Lines.state := lines w; Lines.frames := frames w |}.

Section WithPlatform.
Context {E : Math.Engine} {L : Globe.Library}.

(** The next statement of [initScene]. *)
Definition initScene_step (w : System) : System :=
  with_host w (Globe.initScene_step (host_world w)).

(** The texture does not load: [initScene] ends in a rejection. *)
Definition texture_fails (w : System) : System :=
  with_host w {| Globe.heap := heap w; Globe.state := Globe.set_pc Globe.Failed (host w);
                 Globe.frames := frames w |}.

(** The marker layer's watchers fire. *)
Definition markers_rebuild (w : System) : System :=
  let '(h, st) :=
    Markers.createMarkers (locations w) (Globe.scene (host w)) (heap w) (markers w) in
  {| heap := h; host := host w; markers := st; lines := lines w; frames := frames w;
     cursor := cursor w; locations := locations w; connections := connections w |}.

(** The line layer's watchers fire. *)
Definition lines_rebuild (now : float) (w : System) : System :=
  with_lines w
    (Lines.createLines now (locations w) (connections w) (Globe.scene (host w))
                       (lines_world w)).

(** The caller passes new props. *)
Definition set_props (locs : list Location) (conns : list Connection) (w : System) : System :=
  {| heap := heap w; host := host w; markers := markers w; lines := lines w;
     frames := frames w; cursor := cursor w; locations := locs; connections := conns |}.

Definition run_callback (now : float) (cb : Callback) (w : System) : System :=
  match cb with
  | GlobeAnimate => with_host w (Globe.animate (host_world w))
  | LinesAnimate => with_lines w (Lines.animate now (lines_world w))
  end.

(** One animation frame: the callbacks waiting at its start run in the
    order they were requested; what they request waits for the next frame.
    [now k] is the clock reading during the [k]-th callback. *)
Definition run_frame (now : nat -> float) (w : System) : System :=
  let cbs := pending (frames w) in
  let w :=
    {| heap := heap w; host := host w; markers := markers w; lines := lines w;
       frames := {| pending := []; next_handle := next_handle (frames w) |};
       cursor := cursor w; locations := locations w; connections := connections w |} in
  forEach (fun w (p : nat * Callback) k => run_callback (now k) (snd p) w) cbs w.

(** The 100 ms timer of [initScene] fires. *)
Definition focus_timer_fires (w : System) : System :=
  {| heap := heap w;
     host := Globe.focusOnMarkers (locations w) (Globe.set_focus_timer false (host w));
     markers := markers w; lines := lines w; frames := frames w; cursor := cursor w;
     locations := locations w; connections := connections w |}.

(** The page hovers a marker. *)
Definition hover (index : Z) (isHovered : bool) (w : System) : System :=
  let r :=
    match Markers.handleMarkerHover index isHovered
            {| Markers.heap := heap w; Markers.state := markers w;
               Markers.cursor := cursor w |} with
    | Returned r | Threw r => r
    end in
  {| heap := Markers.heap r; host := host w; markers := Markers.state r; lines := lines w;
     frames := frames w; cursor := Markers.cursor r;
     locations := locations w; connections := connections w |}.

(** The controller's [start] and [end] listeners. *)
Definition drag (b : bool) (w : System) : System :=
  {| heap := heap w; host := Globe.set_isDragging b (host w); markers := markers w;
     lines := lines w; frames := frames w; cursor := cursor w;
     locations := locations w; connections := connections w |}.

(** One step of the page.  JavaScript runs a callback to its end: between
    two statements of [initScene] nothing else runs, and everything else
    runs only while [initScene] is suspended. *)
Inductive step : System -> System -> Prop :=
| step_init w :
    step w (initScene_step w)
| step_texture_fails w :
    Globe.pc (host w) = Globe.Awaiting -> step w (texture_fails w)
| step_markers w :
    Globe.suspended (Globe.pc (host w)) = true -> step w (markers_rebuild w)
| step_lines now w :
    Globe.suspended (Globe.pc (host w)) = true -> step w (lines_rebuild now w)
| step_props locs conns w :
    Globe.suspended (Globe.pc (host w)) = true -> step w (set_props locs conns w)
| step_frame now w :
    Globe.suspended (Globe.pc (host w)) = true -> step w (run_frame now w)
| step_focus w :
    Globe.suspended (Globe.pc (host w)) = true ->
    Globe.focus_timer (host w) = true -> step w (focus_timer_fires w)
| step_hover index isHovered w :
    Globe.suspended (Globe.pc (host w)) = true -> step w (hover index isHovered w)
| step_drag b w :
    Globe.suspended (Globe.pc (host w)) = true ->
    Globe.controls (host w) <> None -> step w (drag b w).

Inductive reachable : System -> Prop :=
| reachable_initial container locs conns :
    reachable (initial container locs conns)
| reachable_step w w' :
    reachable w -> step w w' -> reachable w'.

End WithPlatform.

(** The handle the child layers read, [scene.value]. *)
Definition scene_handle (w : System) : option nat := Globe.scene (host w).

End Page.

(* ===================================================================== *)
(** * Definitions for the proofs *)
(* ===================================================================== *)

(* ===================================================================== *)
(** ** Reasoning about the heap *)
(* ===================================================================== *)

Module HeapDefs.
Import Three.

Inductive Kind : Type := KScene | KGroup | KMesh | KLine | KAmbientLight | KPointLight.

Definition kind (o : Object3D) : Kind :=
  match data o with
  | Scene => KScene
  | Group => KGroup
  | Mesh _ _ => KMesh
  | Line _ _ => KLine
  | AmbientLight _ _ => KAmbientLight
  | PointLight _ _ _ => KPointLight
  end.

(** Geometry and material both released. *)
Definition obj_disposed (o : Object3D) : bool :=
  match data o with
  | Mesh g m | Line g m => geometry_disposed g && material_disposed m
  | _ => false
  end.

(** No object refers to a child outside the heap. *)
Definition closed (h : Heap) : bool :=
  forallb (fun o => forallb (fun c => c <? length h)%nat (children o)) h.

(** [h] becomes [h']: objects are only added; an object keeps its kind and
    its position, and its children unless it is [g]; what was disposed
    stays disposed. *)
Definition evolves (g : nat) (h h' : Heap) : Prop :=
  (length h <= length h')%nat /\
  forall i o, h !! i = Some o ->
    exists o', h' !! i = Some o' /\
      kind o' = kind o /\
      position o' = position o /\
      (i <> g -> children o' = children o) /\
      (obj_disposed o = true -> obj_disposed o' = true).

(** Every child named in [h] is below [n]. *)
Definition bounded (n : nat) (h : Heap) : Prop :=
  Forall (fun o => Forall (fun c => c < n)%nat (children o)) h.

(** The published handle names a scene object of the heap. *)
Definition is_Scene (h : Heap) (s : nat) : bool :=
  match h !! s with
  | Some {| data := Scene |} => true
  | _ => false
  end.

(** [h] becomes [h'] by retouching objects in place: as many objects, each
    with its kind, position and children; what was disposed stays so. *)
Definition retouched (h h' : Heap) : Prop :=
  length h' = length h /\
  forall i o, h !! i = Some o ->
    exists o', h' !! i = Some o' /\
      kind o' = kind o /\
      position o' = position o /\
      children o' = children o /\
      (obj_disposed o = true -> obj_disposed o' = true).

End HeapDefs.

Module MarkerDefs.
Import Three HeapDefs.
Section WithEngine.
Context {E : Math.Engine}.

(** The addresses of the markers built into a heap of [L] objects: each
    round of the loop allocates the marker, its sphere and its light. *)
Definition marker_ids (L n : nat) : list nat :=
  map (fun k => (L + 3 * k)%nat) (seq 0 n).

(** The three objects one round of [createMarkers] leaves in the heap. *)
Definition marker_object (location : Location) (m : nat) : Object3D :=
  {| data := Group;
     position := latLngToVector3 (lat location) (lng location) 0.92;
     rotation_y := 0;
     children := [S m; S (S m)] |}.

Definition sphere_object : Object3D :=
  {| data := Mesh Markers.marker_geometry Markers.marker_material;
     position := Vector3.zero; rotation_y := 0; children := [] |}.

Definition light_object : Object3D :=
  {| data := PointLight "#d5aa0f" 0.1 0.08;
     position := Vector3.zero; rotation_y := 0; children := [] |}.

(** A marker as [handleMarkerHover] expects it: a group whose first child
    is a mesh. *)
Definition marker_ok (h : Heap) (m : nat) : Prop :=
  exists om sphere rest os,
    h !! m = Some om /\ kind om = KGroup /\ children om = sphere :: rest /\
    h !! sphere = Some os /\ kind os = KMesh.

(** The sphere of a marker has been released. *)
Definition marker_disposed (h : Heap) (m : nat) : Prop :=
  exists sphere rest os,
    childrenOf h m = sphere :: rest /\ h !! sphere = Some os /\ obj_disposed os = true.

(** Where the marker of a location is put. *)
Definition marker_position (location : Location) : Vec3 :=
  latLngToVector3 (lat location) (lng location) 0.92.

End WithEngine.
End MarkerDefs.

Module LineDefs.
Import Three HeapDefs.
Section WithEngine.
Context {E : Math.Engine}.

(** The object one round of [createLines] leaves in the heap. *)
Definition line_object (fromLocation toLocation : Location) : Object3D :=
  {| data := Lines.line_data fromLocation toLocation;
     position := Vector3.zero; rotation_y := 0; children := [] |}.

(** The two ends of a connection, when both names are found. *)
Definition resolve (locations : list Location) (connection : Connection)
  : option (Location * Location) :=
  match Lines.find_location locations (from connection),
        Lines.find_location locations (to connection) with
  | Some fromLocation, Some toLocation => Some (fromLocation, toLocation)
  | _, _ => None
  end.

(** The connections that resolve, in input order. *)
Definition resolved (locations : list Location) (connections : list Connection)
  : list (Location * Location) :=
  omap (resolve locations) connections.

(** A line as the sweep expects it. *)
Definition line_ok (h : Heap) (l : nat) : Prop :=
  exists o, h !! l = Some o /\ kind o = KLine.

(** The geometry and material of a line have been released. *)
Definition line_disposed (h : Heap) (l : nat) : Prop :=
  exists o, h !! l = Some o /\ obj_disposed o = true.

End WithEngine.
End LineDefs.

(* ===================================================================== *)
(** ** Sample inputs *)
(* ===================================================================== *)

Module Samples.
Import Three.

(** An engine and a controller library to run the examples on: the first
    terms of the two series, and a controller that leaves the camera where
    it is.  No theorem is about them. *)
Definition engine : Math.Engine :=
  {| Math.sin_approx := fun x => x - x * x * x / 6;
     Math.cos_approx := fun x => 1 - x * x / 2 |}.

Definition library : Globe.Library :=
  {| Globe.update := fun cam c => (cam, c) |}.

(** A scene that holds its globe group and nothing else. *)
Definition bare_scene : Heap :=
  [ {| data := Scene; position := Vector3.zero; rotation_y := 0; children := [1%nat] |};
    {| data := Group; position := Vector3.zero; rotation_y := 0; children := [] |} ].

Definition A : Location := {| name := "A"; lat := 0; lng := 0 |}.
Definition B : Location := {| name := "B"; lat := 90; lng := 10 |}.
Definition A_to_B : Connection := {| from := "A"; to := "B" |}.
Definition A_to_C : Connection := {| from := "A"; to := "C" |}.

(** The line layer on the bare scene, before its first rebuild. *)
Definition bare_lines : Lines.World :=
  {| Lines.heap := bare_scene; Lines.state := Lines.initial;
     Lines.frames := Browser.no_frames |}.

(** The marker layer on the bare scene, before its first rebuild. *)
Definition bare_hover : Markers.Hover :=
  {| Markers.heap := bare_scene; Markers.state := Markers.initial;
     Markers.cursor := "auto" |}.

(** The marker layer after a rebuild for the locations [A] and [B]. *)
Definition built_hover : Markers.Hover :=
  let '(h, st) :=
    Markers.createMarkers (E := engine) [A; B] (Some 0%nat) bare_scene Markers.initial in
  {| Markers.heap := h; Markers.state := st; Markers.cursor := "auto" |}.

(** A host whose controller and camera exist. *)
Definition ready_host : Globe.State :=
  Globe.set_controls (Some Globe.new_controls)
    (Globe.set_camera
       (Some {| Globe.fov := 45; Globe.aspect := 2; Globe.near := 0.1; Globe.far := 1000;
                Globe.camera_position := Vector3.mk 0 0 2.5; Globe.looking_at := None |})
       (Globe.initial (Some (800, 400)))).

End Samples.

Module PageDefs.
Import Three HeapDefs Page.

(** The scene has been created and holds nothing yet. *)
Definition Created (w : System) : Prop :=
  exists s, Globe.scene (host w) = Some s /\
    is_Scene (heap w) s = true /\ childrenOf (heap w) s = [].

(** The scene is there with the globe group in it: the structural search
    of the child layers succeeds, on the group the host holds. *)
Definition Published (w : System) : Prop :=
  exists s g, Globe.scene (host w) = Some s /\ Globe.globeGroup (host w) = Some g /\
    is_Scene (heap w) s = true /\
    findGlobeGroup (heap w) s = Some g /\
    Forall (fun c => c < length (heap w))%nat (childrenOf (heap w) s).

(** What holds at each statement of [initScene]. *)
Definition Inv (w : System) : Prop :=
  match Globe.pc (host w) with
  | Globe.Unmounted | Globe.L72_scene => Globe.scene (host w) = None
  | Globe.L75_camera | Globe.L84_renderer | Globe.L96_group => Created w
  | Globe.L97_add_group =>
      Created w /\
      exists g, Globe.globeGroup (host w) = Some g /\ instanceof_Group (heap w) g = true
  | Globe.Finished => Globe.scene (host w) = None \/ Published w
  | _ => Published w
  end.

(** The camera exists whenever the controller does. *)
Definition camera_with_controls (st : Globe.State) : Prop :=
  Globe.controls st <> None -> Globe.camera st <> None.

(** What the rebuild theorems ask of a heap and a handle. *)
Definition WellFormed (w : System) : Prop :=
  closed (heap w) = true /\
  (forall s, scene_handle w = Some s -> is_Scene (heap w) s = true) /\
  camera_with_controls (host w).

(** The host's view of the scene is the same in two states. *)
Definition same_host_view (w w' : System) : Prop :=
  Globe.pc (host w') = Globe.pc (host w) /\
  Globe.scene (host w') = Globe.scene (host w) /\
  Globe.globeGroup (host w') = Globe.globeGroup (host w).

(** [n] steps of the page from [w], written as a program. *)
Inductive Action : Type :=
| DoInit
| DoMarkers
| DoLines (now : float)
| DoFrame (now : nat -> float).

Section WithPlatform.
Context {E : Math.Engine} {L : Globe.Library}.

Definition perform (a : Action) (w : System) : System :=
  match a with
  | DoInit => initScene_step w
  | DoMarkers => markers_rebuild w
  | DoLines now => lines_rebuild now w
  | DoFrame now => run_frame now w
  end.

Definition run (actions : list Action) (w : System) : System :=
  fold_left (fun w a => perform a w) actions w.

(** [initScene] up to its suspension at the texture load. *)
Definition mount : list Action := repeat DoInit 7.

End WithPlatform.

End PageDefs.


(* ===================================================================== *)
(** * Proofs *)
(* ===================================================================== *)

Module HeapFacts.
Import Vue Three HeapDefs.

Lemma evolves_refl g h : evolves g h h.
Proof. split; [lia|]. intros i o Ho. exists o. auto. Qed.

Lemma evolves_trans g h1 h2 h3 :
  evolves g h1 h2 -> evolves g h2 h3 -> evolves g h1 h3.
Proof.
  intros [L1 E1] [L2 E2]. split; [lia|].
  intros i o Ho. destruct (E1 i o Ho) as (o2 & H2 & K2 & P2 & C2 & D2).
  destruct (E2 i o2 H2) as (o3 & H3 & K3 & P3 & C3 & D3).
  exists o3. repeat split; try congruence.
  - intros Hi. rewrite C3, C2; auto.
  - auto.
Qed.

Lemma evolves_app g (h l : Heap) : evolves g h (h ++ l).
Proof.
  split; [rewrite length_app; lia|].
  intros i o Ho. exists o. split; [by apply lookup_app_l_Some|auto].
Qed.

Lemma evolves_alter g (f : Object3D -> Object3D) i (h : Heap) :
  (forall o, h !! i = Some o ->
     kind (f o) = kind o /\ position (f o) = position o /\
     (i <> g -> children (f o) = children o) /\
     (obj_disposed o = true -> obj_disposed (f o) = true)) ->
  evolves g h (alter f i h).
Proof.
  intros Hf. split; [by rewrite length_alter|].
  intros j o Ho. destruct (decide (i = j)) as [->|Hne].
  - exists (f o). rewrite list_lookup_alter_eq, Ho. split; [done|].
    destruct (Hf o Ho) as (? & ? & ? & ?). auto.
  - exists o. rewrite list_lookup_alter_ne by done. auto.
Qed.

Lemma evolves_lookup g h h' i o :
  evolves g h h' -> h !! i = Some o -> exists o', h' !! i = Some o' /\ kind o' = kind o.
Proof. intros [_ E] Ho. destruct (E i o Ho) as (o' & ? & ? & _). eauto. Qed.

Lemma evolves_childrenOf g h h' i :
  evolves g h h' -> i <> g -> (i < length h)%nat -> childrenOf h' i = childrenOf h i.
Proof.
  intros [_ E] Hi Hlt. unfold childrenOf.
  destruct (lookup_lt_is_Some_2 h i Hlt) as [o Ho].
  destruct (E i o Ho) as (o' & Ho' & _ & _ & C & _).
  rewrite Ho, Ho'. auto.
Qed.

Lemma instanceof_Group_spec (h : Heap) c :
  instanceof_Group h c = true <-> exists o, h !! c = Some o /\ kind o = KGroup.
Proof.
  unfold instanceof_Group, kind. destruct (h !! c) as [[d p r cs]|]; simpl.
  - destruct d; split; intros H; try discriminate; eauto;
      destruct H as (o & [= <-] & Hk); simpl in Hk; discriminate.
  - split; [discriminate|]. intros (o & ? & _). discriminate.
Qed.

Lemma evolves_instanceof_Group g h h' c :
  evolves g h h' -> (c < length h)%nat -> instanceof_Group h' c = instanceof_Group h c.
Proof.
  intros [_ E] Hc. destruct (lookup_lt_is_Some_2 h c Hc) as [o Ho].
  destruct (E c o Ho) as (o' & Ho' & K & _).
  unfold instanceof_Group, kind in *. rewrite Ho, Ho'.
  destruct o as [d ? ? ?], o' as [d' ? ? ?]; simpl in *.
  destruct d, d'; simpl in *; congruence.
Qed.

Lemma find_ext_Forall {A} (f g : A -> bool) (l : list A) :
  Forall (fun x => f x = g x) l -> List.find f l = List.find g l.
Proof.
  induction 1 as [|x l Hx _ IH]; simpl; [done|]. rewrite Hx, IH. done.
Qed.

(** The structural search finds the same group after the heap has evolved,
    as long as the scene itself is not the object whose children changed. *)
Lemma evolves_findGlobeGroup g h h' s :
  evolves g h h' -> s <> g -> (s < length h)%nat ->
  Forall (fun c => c < length h)%nat (childrenOf h s) ->
  findGlobeGroup h' s = findGlobeGroup h s.
Proof.
  intros E Hs Hlt Hv. unfold findGlobeGroup.
  rewrite (evolves_childrenOf g h h' s E Hs Hlt).
  apply find_ext_Forall. eapply Forall_impl; [exact Hv|].
  intros c Hc. simpl in Hc. by apply (evolves_instanceof_Group g).
Qed.

Lemma findGlobeGroup_Some h s g :
  findGlobeGroup h s = Some g ->
  (exists o, h !! g = Some o /\ kind o = KGroup) /\ g ∈ childrenOf h s /\ (s < length h)%nat.
Proof.
  unfold findGlobeGroup. intros H.
  destruct (find_some _ _ H) as [Hin Hg].
  split; [by apply instanceof_Group_spec|]. split; [by apply list_elem_of_In|].
  unfold childrenOf in Hin. destruct (h !! s) eqn:E; [|destruct Hin].
  by eapply lookup_lt_Some.
Qed.

Lemma retouched_refl h : retouched h h.
Proof. split; [done|]. intros i o Ho. exists o. auto. Qed.

Lemma retouched_trans h1 h2 h3 :
  retouched h1 h2 -> retouched h2 h3 -> retouched h1 h3.
Proof.
  intros [L1 E1] [L2 E2]. split; [congruence|].
  intros i o Ho. destruct (E1 i o Ho) as (o2 & H2 & K2 & P2 & C2 & D2).
  destruct (E2 i o2 H2) as (o3 & H3 & K3 & P3 & C3 & D3).
  exists o3. repeat split; try congruence. auto.
Qed.

Lemma retouched_evolves g h h' : retouched h h' -> evolves g h h'.
Proof.
  intros [L E]. split; [lia|]. intros i o Ho.
  destruct (E i o Ho) as (o' & ? & ? & ? & ? & ?). exists o'. auto.
Qed.

Lemma retouched_alter (f : Object3D -> Object3D) i (h : Heap) :
  (forall o, h !! i = Some o ->
     kind (f o) = kind o /\ position (f o) = position o /\
     children (f o) = children o /\
     (obj_disposed o = true -> obj_disposed (f o) = true)) ->
  retouched h (alter f i h).
Proof.
  intros Hf. split; [by rewrite length_alter|].
  intros j o Ho. destruct (decide (i = j)) as [->|Hne].
  - exists (f o). rewrite list_lookup_alter_eq, Ho. split; [done|].
    destruct (Hf o Ho) as (? & ? & ? & ?). auto.
  - exists o. rewrite list_lookup_alter_ne by done. auto.
Qed.

Lemma retouched_childrenOf h h' i : retouched h h' -> childrenOf h' i = childrenOf h i.
Proof.
  intros [L E]. unfold childrenOf. destruct (h !! i) as [o|] eqn:Ho.
  - destruct (E i o Ho) as (o' & -> & _ & _ & C & _). done.
  - apply lookup_ge_None in Ho. rewrite (lookup_ge_None_2 h' i); [done|lia].
Qed.

Lemma retouched_fold {A} (f : Heap -> A -> Heap) (l : list A) :
  (forall h x, retouched h (f h x)) -> forall h, retouched h (fold_left f l h).
Proof.
  intros Hf. induction l as [|x l IH]; intros h; simpl; [apply retouched_refl|].
  eapply retouched_trans; [apply Hf|apply IH].
Qed.

Lemma evolves_fold {A} g (f : Heap -> A -> Heap) (l : list A) :
  (forall h x, evolves g h (f h x)) -> forall h, evolves g h (fold_left f l h).
Proof.
  intros Hf. induction l as [|x l IH]; intros h; simpl; [apply evolves_refl|].
  eapply evolves_trans; [apply Hf|apply IH].
Qed.

Lemma retouched_dispose_if_mesh o h : retouched h (dispose_if_mesh o h).
Proof.
  apply retouched_alter. intros [d p r cs] _. unfold kind, obj_disposed.
  destruct d; simpl; auto.
Qed.

Lemma retouched_dispose_line o h : retouched h (dispose_line o h).
Proof.
  apply retouched_alter. intros [d p r cs] _. unfold kind, obj_disposed.
  destruct d; simpl; auto.
Qed.

Lemma retouched_traverse cb :
  (forall o h, retouched h (cb o h)) ->
  forall depth o h, retouched h (traverse depth cb o h).
Proof.
  intros Hcb. induction depth as [|d IH]; intros o h; simpl; [apply retouched_refl|].
  eapply retouched_trans; [apply Hcb|].
  apply retouched_fold. intros h' c. apply IH.
Qed.

(** [remove] and [add] on a group touch the children of that group only. *)
Lemma evolves_remove g (c : Ref) h : evolves g h (remove g c h).
Proof.
  apply evolves_alter. intros o _. destruct (found_in (children o) c); [|auto].
  unfold kind, obj_disposed. simpl.
  repeat split; auto. intros Hne. by destruct Hne.
Qed.

(** Removing by a reactive proxy removes nothing: the children array holds
    the objects themselves, and [indexOf] does not find the proxy in it. *)
Lemma remove_Reactive g m (h : Heap) : remove g (Reactive m) h = h.
Proof. unfold remove. by apply list_alter_id. Qed.

Lemma evolves_add g c h : evolves g h (add g c h).
Proof.
  apply evolves_alter. intros o _. unfold kind, obj_disposed. simpl.
  repeat split; auto. intros Hne. by destruct Hne.
Qed.

Lemma childrenOf_alter_eq (f : Object3D -> Object3D) i (h : Heap) :
  childrenOf (alter f i h) i =
    match h !! i with Some o => children (f o) | None => [] end.
Proof. unfold childrenOf. rewrite list_lookup_alter_eq. by destruct (h !! i). Qed.

(** Removing the object itself takes its first occurrence out. *)
Lemma childrenOf_remove g c h :
  childrenOf (remove g (Raw c) h) g = remove_first c (childrenOf h g).
Proof.
  unfold remove. rewrite childrenOf_alter_eq. unfold childrenOf.
  destruct (h !! g) as [o|]; [|done].
  cbn [found_in toRaw]. destruct (existsb (Nat.eqb c) (children o)) eqn:Hex; [done|].
  cbn [children]. induction (children o) as [|x l IH]; [done|].
  cbn [existsb] in Hex. apply orb_false_iff in Hex as [Hx Hl].
  cbn [remove_first]. rewrite Nat.eqb_sym, Hx. by rewrite <- IH.
Qed.

Lemma childrenOf_add g c (h : Heap) :
  (g < length h)%nat -> childrenOf (add g c h) g = childrenOf h g ++ [c].
Proof.
  intros Hg. unfold add. rewrite childrenOf_alter_eq. unfold childrenOf.
  destruct (lookup_lt_is_Some_2 h g Hg) as [o ->]. done.
Qed.

Lemma childrenOf_app_l (h l : Heap) i :
  (i < length h)%nat -> childrenOf (h ++ l) i = childrenOf h i.
Proof. intros Hi. unfold childrenOf. by rewrite lookup_app_l. Qed.

Lemma remove_first_app_notin c X Y :
  c ∉ X -> remove_first c (X ++ c :: Y) = X ++ Y.
Proof.
  induction X as [|x X IH]; intros Hc; simpl.
  - by rewrite Nat.eqb_refl.
  - apply not_elem_of_cons in Hc as [Hne Hc].
    destruct (Nat.eqb_spec x c); [congruence|]. by rewrite IH.
Qed.

(** Sweeping a batch that sits at the end of a child list, none of it
    among the other children, leaves exactly the other children. *)
Lemma sweep_app X ids :
  Forall (fun m => m ∉ X) ids ->
  fold_left (fun cs m => remove_first m cs) ids (X ++ ids) = X.
Proof.
  induction 1 as [|m ids Hm _ IH]; simpl.
  - by rewrite app_nil_r.
  - by rewrite remove_first_app_notin.
Qed.

Lemma remove_first_subseteq c l x : x ∈ remove_first c l -> x ∈ l.
Proof.
  induction l as [|y l IH]; simpl; [done|].
  destruct (Nat.eqb y c).
  - intros. apply elem_of_cons. auto.
  - rewrite !elem_of_cons. intros [->|H]; auto.
Qed.

Lemma sweep_subseteq ids : forall l x,
  x ∈ fold_left (fun cs m => remove_first m cs) ids l -> x ∈ l.
Proof.
  induction ids as [|m ids IH]; intros l x; simpl; [done|].
  intros H. apply IH in H. by eapply remove_first_subseteq.
Qed.

Lemma closed_children (h : Heap) i :
  closed h = true -> Forall (fun c => c < length h)%nat (childrenOf h i).
Proof.
  unfold closed, childrenOf. intros Hc.
  destruct (h !! i) as [o|] eqn:Ho; [|constructor].
  rewrite forallb_forall in Hc.
  apply list_elem_of_lookup_2, list_elem_of_In in Ho. specialize (Hc o Ho).
  rewrite forallb_forall in Hc. apply Forall_forall. intros c Hin.
  apply list_elem_of_In, Hc in Hin. by apply Nat.ltb_lt in Hin.
Qed.

Lemma is_Scene_spec (h : Heap) s :
  is_Scene h s = true <-> exists o, h !! s = Some o /\ kind o = KScene.
Proof.
  unfold is_Scene, kind. destruct (h !! s) as [[d p r cs]|]; simpl.
  - destruct d; split; intros H; try discriminate; eauto;
      destruct H as (o & [= <-] & Hk); simpl in Hk; discriminate.
  - split; [discriminate|]. intros (o & ? & _). discriminate.
Qed.

Lemma scene_not_group (h : Heap) s g :
  is_Scene h s = true -> instanceof_Group h g = true -> s <> g.
Proof.
  rewrite is_Scene_spec, instanceof_Group_spec.
  intros (o & Ho & Ko) (o' & Ho' & Ko') ->. congruence.
Qed.

Lemma closed_bounded (h : Heap) : closed h = true <-> bounded (length h) h.
Proof.
  unfold closed, bounded. rewrite forallb_forall, Forall_forall.
  split; intros H o Ho.
  - apply list_elem_of_In, H in Ho. rewrite forallb_forall in Ho.
    apply Forall_forall. intros c Hc. apply list_elem_of_In, Ho in Hc.
    by apply Nat.ltb_lt in Hc.
  - apply list_elem_of_In, H in Ho. rewrite Forall_forall in Ho.
    apply forallb_forall. intros c Hc. apply Nat.ltb_lt, Ho. by apply list_elem_of_In.
Qed.

Lemma bounded_mono n n' h : (n <= n')%nat -> bounded n h -> bounded n' h.
Proof.
  intros Hn Hb. unfold bounded in *. eapply Forall_impl; [exact Hb|].
  intros o Ho. eapply Forall_impl; [exact Ho|]. intros c. simpl. lia.
Qed.

Lemma bounded_app n h l : bounded n (h ++ l) <-> bounded n h /\ bounded n l.
Proof. apply Forall_app. Qed.

Lemma bounded_alter n (f : Object3D -> Object3D) i h :
  bounded n h ->
  (forall o, Forall (fun c => c < n)%nat (children o) ->
             Forall (fun c => c < n)%nat (children (f o))) ->
  bounded n (alter f i h).
Proof. intros Hb Hf. apply Forall_alter; [done|]. intros o _. apply Hf. Qed.

Lemma bounded_retouched n h h' : retouched h h' -> bounded n h -> bounded n h'.
Proof.
  intros [L E] Hb. unfold bounded in *. rewrite Forall_lookup in Hb |- *.
  intros i o' Ho'.
  destruct (h !! i) as [o|] eqn:Ho.
  - destruct (E i o Ho) as (o'' & Ho'' & _ & _ & C & _).
    assert (o'' = o') as -> by congruence. rewrite C. by apply (Hb i).
  - apply lookup_ge_None in Ho. apply lookup_lt_Some in Ho'. lia.
Qed.

Lemma Forall_remove_first (P : nat -> Prop) c l :
  Forall P l -> Forall P (remove_first c l).
Proof.
  rewrite !Forall_forall. intros H x Hx. apply H. by eapply remove_first_subseteq.
Qed.

Lemma bounded_remove n g (c : Ref) h : bounded n h -> bounded n (remove g c h).
Proof.
  intros Hb. apply bounded_alter; [done|]. intros o.
  destruct (found_in (children o) c); [|done]. simpl. apply Forall_remove_first.
Qed.

(** [parent.add(child)] for a child that exists. *)
Lemma bounded_add n g c h : (c < n)%nat -> bounded n h -> bounded n (add g c h).
Proof.
  intros Hc Hb. apply bounded_alter; [done|]. intros o Ho. simpl.
  apply Forall_app. split; [done|]. by apply Forall_singleton.
Qed.

Lemma closed_retouched h h' : retouched h h' -> closed h = true -> closed h' = true.
Proof.
  rewrite !closed_bounded. intros R Hb. pose proof R as [L _]. rewrite L.
  by apply (bounded_retouched _ h).
Qed.

End HeapFacts.


Module MarkerFacts.
Import Vue Three HeapDefs HeapFacts MarkerDefs Markers.
Section WithEngine.
Context {js : Math.Engine}.

Lemma marker_ids_S L n : marker_ids L (S n) = L :: marker_ids (L + 3) n.
Proof.
  unfold marker_ids. simpl. f_equal; [lia|].
  rewrite <- seq_shift, map_map. apply map_ext. intros k. lia.
Qed.

Lemma length_marker_ids L n : length (marker_ids L n) = n.
Proof. unfold marker_ids. by rewrite length_map, length_seq. Qed.

Lemma marker_ids_ge L n m : m ∈ marker_ids L n -> (L <= m)%nat.
Proof.
  unfold marker_ids. rewrite list_elem_of_In, in_map_iff. intros (k & <- & _). lia.
Qed.

Lemma marker_ids_lookup L n k : (k < n)%nat -> marker_ids L n !! k = Some (L + 3 * k)%nat.
Proof.
  intros Hk. unfold marker_ids. rewrite list_lookup_fmap.
  rewrite lookup_seq_lt by done. done.
Qed.

Lemma alter_app_at {A} (f : A -> A) (l : list A) x l' :
  alter f (length l) (l ++ x :: l') = l ++ f x :: l'.
Proof.
  rewrite alter_app_r_alt by lia. by rewrite Nat.sub_diag.
Qed.

(** One round of the loop, in closed form. *)
Lemma create_marker_eq g (h : Heap) ms location :
  (g < length h)%nat ->
  create_marker g (h, ms) location =
    (alter (fun o => set_children (children o ++ [length h]) o) g h
       ++ [marker_object location (length h); sphere_object; light_object],
     ms ++ [length h]).
Proof.
  intros Hg. unfold create_marker, new, add, position_copy. f_equal.
  rewrite <- !app_assoc. simpl.
  rewrite alter_app_at.
  rewrite !length_app. simpl length.
  rewrite <- !app_assoc. simpl.
  rewrite alter_app_at.
  rewrite alter_app_at.
  rewrite alter_app_l by done.
  unfold marker_object, sphere_object, light_object, set_position, set_children. simpl.
  replace (length h + 1)%nat with (S (length h)) by lia.
  replace (length h + 2)%nat with (S (S (length h))) by lia.
  reflexivity.
Qed.

(** The loop of [createMarkers] over the locations. *)
Lemma create_markers_fold g locs :
  forall (h : Heap) ms og, h !! g = Some og -> kind og = KGroup ->
  exists h',
    fold_left (create_marker g) locs (h, ms)
      = (h', ms ++ marker_ids (length h) (length locs)) /\
    length h' = (length h + 3 * length locs)%nat /\
    evolves g h h' /\
    childrenOf h' g = childrenOf h g ++ marker_ids (length h) (length locs) /\
    (forall k loc, locs !! k = Some loc ->
       h' !! (length h + 3 * k)%nat = Some (marker_object loc (length h + 3 * k)) /\
       h' !! S (length h + 3 * k) = Some sphere_object) /\
    (forall i o, h !! i = Some o -> i <> g -> h' !! i = Some o).
Proof.
  induction locs as [|loc locs IH]; intros h ms og Hg Hk.
  - exists h. simpl. rewrite !app_nil_r. split_and!; auto using evolves_refl.
    intros k loc Hl. by rewrite lookup_nil in Hl.
  - pose proof (lookup_lt_Some _ _ _ Hg) as Hlt.
    change (fold_left (create_marker g) (loc :: locs) (h, ms))
      with (fold_left (create_marker g) locs (create_marker g (h, ms) loc)).
    rewrite create_marker_eq by done.
    set (h1 := alter _ g h ++ _).
    assert (Hlen1 : length h1 = (length h + 3)%nat).
    { unfold h1. rewrite length_app, length_alter. simpl. lia. }
    assert (Hg1 : h1 !! g = Some (set_children (children og ++ [length h]) og)).
    { unfold h1. rewrite lookup_app_l by (by rewrite length_alter).
      by rewrite list_lookup_alter_eq, Hg. }
    assert (Hfr1 : forall i o, h !! i = Some o -> i <> g -> h1 !! i = Some o).
    { intros i o Ho Hne. unfold h1. apply lookup_app_l_Some.
      by rewrite list_lookup_alter_ne. }
    assert (Hnew : h1 !! length h = Some (marker_object loc (length h)) /\
                   h1 !! S (length h) = Some sphere_object).
    { unfold h1. split.
      - rewrite lookup_app_r by (rewrite length_alter; lia).
        rewrite length_alter, Nat.sub_diag. done.
      - rewrite lookup_app_r by (rewrite length_alter; lia).
        rewrite length_alter. replace (S (length h) - length h)%nat with 1%nat by lia. done. }
    destruct (IH h1 (ms ++ [length h]) _ Hg1 Hk)
      as (h' & Hfold & Hlen & Hev & Hch & Hobj & Hfr).
    exists h'. rewrite Hlen1 in *. split_and!.
    + rewrite Hfold. f_equal. simpl length. rewrite marker_ids_S, <- app_assoc. done.
    + rewrite Hlen. simpl. lia.
    + eapply evolves_trans; [|exact Hev]. unfold h1.
      eapply evolves_trans; [|apply evolves_app]. apply evolves_add.
    + rewrite Hch. simpl length. rewrite marker_ids_S, cons_middle, app_assoc. f_equal.
      unfold childrenOf. rewrite Hg1, Hg. done.
    + intros k l Hl. destruct k as [|k]; simpl in Hl.
      * injection Hl as <-. rewrite Nat.mul_0_r, Nat.add_0_r.
        split; (apply Hfr; [apply Hnew|lia]).
      * destruct (Hobj k l Hl) as [H1 H2].
        replace (length h + 3 * S k)%nat with (length h + 3 + 3 * k)%nat by lia. done.
    + intros i o Ho Hne. apply Hfr; auto.
Qed.

(** One round of the sweep: the marker is handed to [remove] as a
    reactive proxy, so it stays where it is; its meshes are released. *)
Lemma clear_marker_retouched g h m : retouched h (clear_marker g h m).
Proof.
  unfold clear_marker. rewrite remove_Reactive.
  apply retouched_traverse, retouched_dispose_if_mesh.
Qed.

Lemma clear_marker_spec g h m :
  let h' := clear_marker g h m in
  length h' = length h /\ evolves g h h' /\
  childrenOf h' g = childrenOf h g.
Proof.
  pose proof (clear_marker_retouched g h m) as Hr. split_and!.
  - by destruct Hr.
  - by apply retouched_evolves.
  - by apply retouched_childrenOf.
Qed.

(** The sweep over the marker collection. *)
Lemma clear_markers_retouched g ms h : retouched h (fold_left (clear_marker g) ms h).
Proof. apply retouched_fold. intros. apply clear_marker_retouched. Qed.

Lemma clear_markers_spec g ms : forall h,
  let h' := fold_left (clear_marker g) ms h in
  length h' = length h /\ evolves g h h' /\
  childrenOf h' g = childrenOf h g.
Proof.
  induction ms as [|m ms IH]; intros h; simpl.
  - auto using evolves_refl.
  - destruct (clear_marker_spec g h m) as (L1 & E1 & C1).
    destruct (IH (clear_marker g h m)) as (L2 & E2 & C2).
    split_and!; [congruence|by eapply evolves_trans|by rewrite C2, C1].
Qed.

Lemma marker_ok_evolves g h h' m :
  evolves g h h' -> m <> g -> marker_ok h m -> marker_ok h' m.
Proof.
  intros [_ E] Hne (om & sp & rest & os & Hm & Km & Cm & Hs & Ks).
  destruct (E m om Hm) as (om' & Hm' & Km' & _ & Cm' & _).
  destruct (E sp os Hs) as (os' & Hs' & Ks' & _).
  exists om', sp, rest, os'. split_and!; try congruence.
  rewrite Cm'; auto.
Qed.

Lemma marker_disposed_evolves g h h' m :
  evolves g h h' -> m <> g -> marker_disposed h m -> marker_disposed h' m.
Proof.
  intros E Hne (sp & rest & os & Cm & Hs & Ds).
  assert (Hm : (m < length h)%nat).
  { unfold childrenOf in Cm. destruct (h !! m) eqn:Hm; [|discriminate].
    by eapply lookup_lt_Some. }
  rewrite <- (evolves_childrenOf g h h' m E Hne Hm) in Cm.
  destruct E as [_ E]. destruct (E sp os Hs) as (os' & Hs' & _ & _ & _ & D').
  exists sp, rest, os'. auto.
Qed.

(** A swept marker has its sphere released. *)
Lemma clear_marker_disposes g h m :
  m <> g -> marker_ok h m -> marker_disposed (clear_marker g h m) m.
Proof.
  intros Hne Hok. unfold clear_marker. cbn [toRaw].
  set (h1 := remove g (Reactive m) h).
  assert (Hok1 : marker_ok h1 m) by (eapply marker_ok_evolves; eauto using evolves_remove).
  destruct Hok1 as (om & sp & rest & os & Hm & Km & Cm & Hs & Ks).
  assert (Hms : m <> sp) by (intros ->; congruence).
  assert (Hlen : (2 <= length h1)%nat).
  { apply lookup_lt_Some in Hm, Hs. lia. }
  destruct (length h1) as [|[|d]]; [lia|lia|].
  cbn [traverse].
  set (h2 := dispose_if_mesh m h1).
  pose proof (retouched_dispose_if_mesh m h1) as R2. fold h2 in R2.
  assert (C2 : childrenOf h2 m = sp :: rest).
  { rewrite (retouched_childrenOf _ _ m R2). unfold childrenOf. by rewrite Hm. }
  rewrite C2. cbn [fold_left].
  destruct R2 as [_ R2]. destruct (R2 sp os Hs) as (os2 & Hs2 & Ks2 & _).
  set (h3 := dispose_if_mesh sp h2).
  assert (Hs3 : exists os3, h3 !! sp = Some os3 /\ obj_disposed os3 = true).
  { unfold h3, dispose_if_mesh. rewrite list_lookup_alter_eq, Hs2. simpl.
    destruct os2 as [d2 p2 r2 c2]. unfold kind in Ks2, Ks. simpl in *.
    destruct d2; try congruence. eexists; split; [done|]. done. }
  destruct Hs3 as (os3 & Hs3 & D3).
  assert (R : retouched h3
                (fold_left (fun h' c => traverse (S d) dispose_if_mesh c h') rest
                   (fold_left (fun h' c => traverse d dispose_if_mesh c h')
                      (childrenOf h3 sp) h3))).
  { eapply retouched_trans.
    - apply (retouched_fold (fun h' c => traverse d dispose_if_mesh c h')).
      intros. apply retouched_traverse, retouched_dispose_if_mesh.
    - apply (retouched_fold (fun h' c => traverse (S d) dispose_if_mesh c h')).
      intros. apply retouched_traverse, retouched_dispose_if_mesh. }
  assert (C3 : childrenOf h3 m = sp :: rest).
  { rewrite <- C2. apply retouched_childrenOf, retouched_dispose_if_mesh. }
  rewrite <- (retouched_childrenOf _ _ m R) in C3.
  destruct R as [_ R]. destruct (R sp os3 Hs3) as (os4 & Hs4 & _ & _ & _ & D4).
  exists sp, rest, os4. auto.
Qed.

Lemma clear_markers_dispose g ms : forall h,
  Forall (fun m => m <> g /\ marker_ok h m) ms ->
  Forall (marker_disposed (fold_left (clear_marker g) ms h)) ms.
Proof.
  induction ms as [|m ms IH]; intros h Hms; simpl; [constructor|].
  apply Forall_cons in Hms as [[Hne Hok] Hms].
  destruct (clear_marker_spec g h m) as (_ & E1 & _).
  destruct (clear_markers_spec g ms (clear_marker g h m)) as (_ & E2 & _).
  constructor.
  - eapply marker_disposed_evolves; [exact E2|done|]. by apply clear_marker_disposes.
  - apply IH. eapply Forall_impl; [exact Hms|]. intros m' [? ?]. split; [done|].
    by eapply marker_ok_evolves.
Qed.

(** What a rebuild of the marker layer leaves behind. *)
Lemma createMarkers_spec locs s g (h : Heap) st :
  findGlobeGroup h s = Some g ->
  exists h',
    createMarkers locs (Some s) h st
      = (h', {| markers := marker_ids (length h) (length locs);
                hoveredMarker := hoveredMarker st |}) /\
    length h' = (length h + 3 * length locs)%nat /\
    evolves g h h' /\
    childrenOf h' g = childrenOf h g ++ marker_ids (length h) (length locs) /\
    (forall k loc, locs !! k = Some loc ->
       h' !! (length h + 3 * k)%nat = Some (marker_object loc (length h + 3 * k)) /\
       h' !! S (length h + 3 * k) = Some sphere_object) /\
    (Forall (fun m => m <> g /\ marker_ok h m) (markers st) ->
     Forall (marker_disposed h') (markers st)).
Proof.
  intros Hfind. unfold createMarkers. rewrite Hfind.
  destruct (findGlobeGroup_Some _ _ _ Hfind) as ((og & Hg & Kg) & _ & _).
  destruct (clear_markers_spec g (markers st) h) as (L1 & E1 & C1).
  set (h1 := fold_left (clear_marker g) (markers st) h) in *.
  destruct (evolves_lookup g h h1 g og E1 Hg) as (og1 & Hg1 & Kg1).
  destruct (create_markers_fold g locs h1 [] og1 Hg1 ltac:(congruence))
    as (h' & Hfold & L2 & E2 & C2 & Hobj & _).
  rewrite L1 in *. exists h'. rewrite Hfold. split_and!; auto.
  - by eapply evolves_trans.
  - by rewrite C2, C1.
  - intros Hok. pose proof (clear_markers_dispose g (markers st) h Hok) as Hd.
    fold h1 in Hd. rewrite Forall_forall in Hd, Hok |- *. intros m Hm.
    eapply marker_disposed_evolves; [exact E2|by apply Hok|by apply Hd].
Qed.

Lemma marker_positions (h' : Heap) L locs :
  (forall k loc, locs !! k = Some loc ->
     h' !! (L + 3 * k)%nat = Some (marker_object loc (L + 3 * k))) ->
  map (position_of h') (marker_ids L (length locs))
    = map (fun loc => Some (marker_position loc)) locs.
Proof.
  intros Hobj. apply list_eq. intros k.
  change (map ?f ?l) with (f <$> l). rewrite !list_lookup_fmap.
  destruct (locs !! k) as [loc|] eqn:Hl.
  - rewrite marker_ids_lookup by (by eapply lookup_lt_Some).
    cbn [fmap option_fmap option_map].
    unfold position_of. by rewrite (Hobj k loc Hl).
  - apply lookup_ge_None in Hl. rewrite (lookup_ge_None_2 (marker_ids _ _)); [done|].
    by rewrite length_marker_ids.
Qed.

Lemma marker_ids_NoDup L n : NoDup (marker_ids L n).
Proof.
  unfold marker_ids. apply NoDup_fmap_2_strong; [|apply NoDup_seq].
  intros a b _ _. lia.
Qed.

(** Every marker of a fresh rebuild is a group whose first child is its
    sphere. *)
Lemma createMarkers_markers_ok locs s g (h : Heap) st :
  findGlobeGroup h s = Some g ->
  Forall (marker_ok (fst (createMarkers locs (Some s) h st)))
         (markers (snd (createMarkers locs (Some s) h st))).
Proof.
  intros Hfind.
  destruct (createMarkers_spec locs s g h st Hfind) as (h' & -> & _ & _ & _ & Hobj & _).
  cbn [fst snd markers]. apply Forall_forall. intros m Hm.
  apply list_elem_of_lookup in Hm as [k Hk].
  assert (Hlt : (k < length locs)%nat).
  { apply lookup_lt_Some in Hk. by rewrite length_marker_ids in Hk. }
  rewrite marker_ids_lookup in Hk by done.
  assert (Hk' : (length h + 3 * k)%nat = m) by congruence.
  destruct (lookup_lt_is_Some_2 locs k Hlt) as [loc Hloc].
  destruct (Hobj k loc Hloc) as [Hm1 Hs1]. rewrite Hk' in Hm1, Hs1.
  exists (marker_object loc m), (S m), [S (S m)], sphere_object. split_and!; auto.
Qed.

Lemma clear_markers_bounded n g ms : forall h,
  bounded n h -> bounded n (fold_left (clear_marker g) ms h).
Proof.
  induction ms as [|m ms IH]; intros h Hb; simpl; [done|].
  apply IH. unfold clear_marker.
  eapply bounded_retouched; [apply retouched_traverse, retouched_dispose_if_mesh|].
  by apply bounded_remove.
Qed.

Lemma create_markers_closed g locs : forall (h : Heap) ms,
  (g < length h)%nat -> closed h = true ->
  closed (fst (fold_left (create_marker g) locs (h, ms))) = true.
Proof.
  induction locs as [|loc locs IH]; intros h ms Hg Hc; [done|].
  change (fold_left (create_marker g) (loc :: locs) (h, ms))
    with (fold_left (create_marker g) locs (create_marker g (h, ms) loc)).
  rewrite create_marker_eq by done. apply IH.
  - rewrite length_app, length_alter. lia.
  - apply closed_bounded in Hc. apply closed_bounded.
    rewrite length_app, length_alter. cbn [length].
    apply bounded_app. split.
    + apply bounded_add; [lia|]. eapply bounded_mono; [|exact Hc]. lia.
    + unfold bounded. repeat constructor; simpl; lia.
Qed.

(** A rebuild leaves no dangling child. *)
Lemma createMarkers_closed locs scene (h : Heap) st :
  closed h = true -> closed (fst (createMarkers locs scene h st)) = true.
Proof.
  intros Hc. unfold createMarkers. destruct scene as [s|]; [|done].
  destruct (findGlobeGroup h s) as [g|] eqn:Hfind; [|done].
  destruct (findGlobeGroup_Some _ _ _ Hfind) as ((og & Hg & _) & _).
  destruct (clear_markers_spec g (markers st) h) as (L1 & _).
  pose proof (create_markers_closed g locs (fold_left (clear_marker g) (markers st) h) []) as H.
  destruct (fold_left (create_marker g) locs _) as [h2 ms2]. apply H.
  - rewrite L1. by eapply lookup_lt_Some.
  - apply closed_bounded. rewrite L1. apply clear_markers_bounded. by apply closed_bounded.
Qed.

End WithEngine.
End MarkerFacts.


Module LineFacts.
Import Vue Three Browser HeapDefs HeapFacts LineDefs Lines.
Section WithEngine.
Context {js : Math.Engine}.

Lemma create_line_resolved locs g (h : Heap) ls progress connection index f t :
  (g < length h)%nat -> resolve locs connection = Some (f, t) ->
  create_line locs g (h, ls, progress) connection index =
    (alter (fun o => set_children (children o ++ [length h]) o) g h ++ [line_object f t],
     ls ++ [length h], array_set progress index 0).
Proof.
  intros Hg Hr. unfold create_line, resolve in *.
  destruct (find_location locs (from connection)) as [f'|]; [|discriminate].
  destruct (find_location locs (to connection)) as [t'|]; [|discriminate].
  injection Hr as -> ->. unfold new, add. rewrite alter_app_l by done. done.
Qed.

Lemma create_line_unresolved locs g acc connection index :
  resolve locs connection = None ->
  create_line locs g acc connection index = acc.
Proof.
  intros Hr. unfold create_line, resolve in *. destruct acc as [[h ls] progress].
  destruct (find_location locs (from connection)) as [f'|]; [|done].
  destruct (find_location locs (to connection)) as [t'|]; [discriminate|done].
Qed.

(** The loop of [createLines] over the connections. *)
Lemma create_lines_loop locs g conns :
  forall (h : Heap) ls progress index og, h !! g = Some og -> kind og = KGroup ->
  exists h' progress',
    forEach_from (create_line locs g) conns index (h, ls, progress)
      = (h', ls ++ seq (length h) (length (resolved locs conns)), progress') /\
    length h' = (length h + length (resolved locs conns))%nat /\
    evolves g h h' /\
    childrenOf h' g = childrenOf h g ++ seq (length h) (length (resolved locs conns)) /\
    (forall k f t, resolved locs conns !! k = Some (f, t) ->
       h' !! (length h + k)%nat = Some (line_object f t)) /\
    (forall i o, h !! i = Some o -> i <> g -> h' !! i = Some o).
Proof.
  induction conns as [|c conns IH]; intros h ls progress index og Hg Hk.
  - exists h, progress. simpl. rewrite !app_nil_r. split_and!; auto using evolves_refl.
    intros k f t Hl. by rewrite lookup_nil in Hl.
  - pose proof (lookup_lt_Some _ _ _ Hg) as Hlt.
    cbn [forEach_from]. unfold resolved. cbn [omap list_omap]. fold (omap (resolve locs) conns).
    fold (resolved locs conns).
    destruct (resolve locs c) as [[f t]|] eqn:Hr.
    + rewrite (create_line_resolved _ _ _ _ _ _ _ f t) by done.
      set (h1 := alter _ g h ++ _).
      assert (Hlen1 : length h1 = S (length h)).
      { unfold h1. rewrite length_app, length_alter. simpl. lia. }
      assert (Hg1 : h1 !! g = Some (set_children (children og ++ [length h]) og)).
      { unfold h1. rewrite lookup_app_l by (by rewrite length_alter).
        by rewrite list_lookup_alter_eq, Hg. }
      assert (Hfr1 : forall i o, h !! i = Some o -> i <> g -> h1 !! i = Some o).
      { intros i o Ho Hne. unfold h1. apply lookup_app_l_Some.
        by rewrite list_lookup_alter_ne. }
      assert (Hnew : h1 !! length h = Some (line_object f t)).
      { unfold h1. rewrite lookup_app_r by (rewrite length_alter; lia).
        by rewrite length_alter, Nat.sub_diag. }
      destruct (IH h1 (ls ++ [length h]) (array_set progress index 0) (S index) _ Hg1 Hk)
        as (h' & progress' & Hfold & Hlen & Hev & Hch & Hobj & Hfr).
      exists h', progress'. rewrite Hlen1 in *. cbn [length seq]. split_and!.
      * rewrite Hfold. by rewrite <- app_assoc.
      * lia.
      * eapply evolves_trans; [|exact Hev]. unfold h1.
        eapply evolves_trans; [|apply evolves_app]. apply evolves_add.
      * rewrite Hch, cons_middle, app_assoc. f_equal.
        unfold childrenOf. by rewrite Hg1, Hg.
      * intros k f' t' Hl. destruct k as [|k]; simpl in Hl.
        -- injection Hl as <- <-. rewrite Nat.add_0_r. apply Hfr; [done|lia].
        -- replace (length h + S k)%nat with (S (length h) + k)%nat by lia. by apply Hobj.
      * intros i o Ho Hne. apply Hfr; auto.
    + rewrite create_line_unresolved by done. by apply (IH h ls progress (S index) og).
Qed.

(** One round of the sweep: the line is handed to [remove] as a reactive
    proxy, so it stays where it is; its geometry and material are
    released. *)
Lemma clear_line_retouched g h l : retouched h (clear_line g h l).
Proof. unfold clear_line. rewrite remove_Reactive. apply retouched_dispose_line. Qed.

Lemma clear_line_spec g h l :
  let h' := clear_line g h l in
  length h' = length h /\ evolves g h h' /\
  childrenOf h' g = childrenOf h g.
Proof.
  pose proof (clear_line_retouched g h l) as Hr. split_and!.
  - by destruct Hr.
  - by apply retouched_evolves.
  - by apply retouched_childrenOf.
Qed.

Lemma clear_lines_retouched g ls h : retouched h (fold_left (clear_line g) ls h).
Proof. apply retouched_fold. intros. apply clear_line_retouched. Qed.

Lemma clear_lines_spec g ls : forall h,
  let h' := fold_left (clear_line g) ls h in
  length h' = length h /\ evolves g h h' /\
  childrenOf h' g = childrenOf h g.
Proof.
  induction ls as [|l ls IH]; intros h; simpl.
  - auto using evolves_refl.
  - destruct (clear_line_spec g h l) as (L1 & E1 & C1).
    destruct (IH (clear_line g h l)) as (L2 & E2 & C2).
    split_and!; [congruence|by eapply evolves_trans|by rewrite C2, C1].
Qed.

Lemma line_ok_evolves g h h' l : evolves g h h' -> line_ok h l -> line_ok h' l.
Proof.
  intros [_ E] (o & Ho & Ko). destruct (E l o Ho) as (o' & Ho' & Ko' & _).
  exists o'. split; congruence.
Qed.

Lemma line_disposed_evolves g h h' l :
  evolves g h h' -> line_disposed h l -> line_disposed h' l.
Proof.
  intros [_ E] (o & Ho & Do). destruct (E l o Ho) as (o' & Ho' & _ & _ & _ & D').
  exists o'. auto.
Qed.

Lemma clear_line_disposes g h l : line_ok h l -> line_disposed (clear_line g h l) l.
Proof.
  intros Hok. unfold clear_line. cbn [toRaw].
  destruct (line_ok_evolves g h (remove g (Reactive l) h) l
              (evolves_remove g (Reactive l) h) Hok)
    as (o & Ho & Ko).
  unfold line_disposed, dispose_line. rewrite list_lookup_alter_eq, Ho. simpl.
  eexists; split; [done|]. destruct o as [d p r cs]. unfold kind in Ko. simpl in *.
  destruct d; try discriminate. done.
Qed.

Lemma clear_lines_dispose g ls : forall h,
  Forall (line_ok h) ls ->
  Forall (line_disposed (fold_left (clear_line g) ls h)) ls.
Proof.
  induction ls as [|l ls IH]; intros h Hls; simpl; [constructor|].
  apply Forall_cons in Hls as [Hok Hls].
  destruct (clear_line_spec g h l) as (_ & E1 & _).
  destruct (clear_lines_spec g ls (clear_line g h l)) as (_ & E2 & _).
  constructor.
  - eapply line_disposed_evolves; [exact E2|]. by apply clear_line_disposes.
  - apply IH. eapply Forall_impl; [exact Hls|]. intros l'. by apply (line_ok_evolves g).
Qed.

(** One round of the animation retouches the line and keeps its points. *)
Lemma animate_line_spec time (h : Heap) progress line index :
  let h' := fst (animate_line time (h, progress) line index) in
  retouched h h' /\ forall i, points_of h' i = points_of h i.
Proof.
  unfold animate_line.
  destruct (h !! line) as [[d p r cs]|] eqn:Hl;
    [|simpl; split; [apply retouched_refl|done]].
  destruct d as [| |g m|g m| |];
    try (simpl; split; [apply retouched_refl|done]).
  destruct g as [sh gd].
  destruct sh as [rad ws hs|pts colors dirty];
    try (simpl; split; [apply retouched_refl|done]).
  cbn [fst]. split.
  - apply retouched_alter. intros o Ho. rewrite Hl in Ho. injection Ho as <-.
    unfold kind, obj_disposed. simpl. split_and!; auto.
  - intros i. unfold points_of. destruct (decide (line = i)) as [<-|Hne].
    + rewrite list_lookup_alter_eq, Hl. simpl. by destruct colors.
    + by rewrite list_lookup_alter_ne.
Qed.

Lemma animate_lines_spec time ls : forall (h : Heap) progress index,
  let h' := fst (forEach_from (animate_line time) ls index (h, progress)) in
  retouched h h' /\ forall i, points_of h' i = points_of h i.
Proof.
  induction ls as [|l ls IH]; intros h progress index; cbn [forEach_from].
  - split; [apply retouched_refl|done].
  - destruct (animate_line_spec time h progress l index) as [R1 P1].
    destruct (animate_line time (h, progress) l index) as [h1 pr1].
    destruct (IH h1 pr1 (S index)) as [R2 P2]. simpl in R1, P1.
    split; [by eapply retouched_trans|]. intros i. by rewrite P2, P1.
Qed.

(** [animate] retouches the lines and asks for exactly one more frame. *)
Lemma animate_spec now w :
  let w' := animate now w in
  lines (state w') = lines (state w) /\
  retouched (heap w) (heap w') /\
  (forall i, points_of (heap w') i = points_of (heap w) i) /\
  frames w' = fst (requestAnimationFrame LinesAnimate (frames w)).
Proof.
  unfold animate, forEach.
  destruct (animate_lines_spec (now * 0.001) (lines (state w)) (heap w)
              (lineProgress (state w)) 0) as [R P].
  destruct (forEach_from _ _ _ _) as [h pr]. simpl in *. auto.
Qed.

Lemma points_of_line_object (h : Heap) i f t :
  h !! i = Some (line_object f t) -> points_of h i = Some (arc_points f t).
Proof. intros H. unfold points_of. by rewrite H. Qed.

(** What a rebuild of the line layer leaves behind. *)
Lemma createLines_spec now locs conns s g w :
  findGlobeGroup (heap w) s = Some g ->
  let w' := createLines now locs conns (Some s) w in
  let L := length (heap w) in
  let n := length (resolved locs conns) in
  lines (state w') = seq L n /\
  length (heap w') = (L + n)%nat /\
  evolves g (heap w) (heap w') /\
  childrenOf (heap w') g = childrenOf (heap w) g ++ seq L n /\
  (forall k f t, resolved locs conns !! k = Some (f, t) ->
     points_of (heap w') (L + k) = Some (arc_points f t)) /\
  frames w' = fst (requestAnimationFrame LinesAnimate (frames w)) /\
  (Forall (line_ok (heap w)) (lines (state w)) ->
   Forall (line_disposed (heap w')) (lines (state w))).
Proof.
  intros Hfind. unfold createLines. rewrite Hfind.
  destruct (findGlobeGroup_Some _ _ _ Hfind) as ((og & Hg & Kg) & _ & _).
  destruct (clear_lines_spec g (lines (state w)) (heap w)) as (L1 & E1 & C1).
  set (h1 := fold_left (clear_line g) (lines (state w)) (heap w)) in *.
  destruct (evolves_lookup g _ h1 g og E1 Hg) as (og1 & Hg1 & Kg1).
  unfold forEach.
  destruct (create_lines_loop locs g conns h1 [] (lineProgress (state w)) 0 og1 Hg1
              ltac:(congruence))
    as (h2 & pr2 & Hloop & L2 & E2 & C2 & Hobj & _).
  rewrite Hloop. rewrite L1 in *.
  match goal with |- context [animate now ?x] => set (w2 := x) end.
  destruct (animate_spec now w2) as (Hls & R & P & Hfr).
  pose proof (retouched_evolves g _ _ R) as E3.
  cbv zeta. split_and!.
  - rewrite Hls. done.
  - destruct R as [-> _]. simpl. done.
  - eapply evolves_trans; [exact E1|]. eapply evolves_trans; [exact E2|exact E3].
  - rewrite (retouched_childrenOf _ _ g R). simpl. by rewrite C2, C1.
  - intros k f t Hk. rewrite P. simpl. apply points_of_line_object. by apply Hobj.
  - exact Hfr.
  - intros Hok. pose proof (clear_lines_dispose g _ _ Hok) as Hd. fold h1 in Hd.
    eapply Forall_impl; [exact Hd|]. intros l Hl.
    eapply line_disposed_evolves; [exact E3|].
    eapply line_disposed_evolves; [exact E2|]. exact Hl.
Qed.

Lemma createLines_no_scene now locs conns w :
  createLines now locs conns None w = w.
Proof. done. Qed.

Lemma loops_request cb cb' fr :
  loops cb (fst (requestAnimationFrame cb' fr))
    = (loops cb fr + (if Callback_eqb cb' cb then 1 else 0))%nat.
Proof.
  unfold loops, requestAnimationFrame. simpl.
  rewrite List.filter_app, length_app. simpl. destruct (Callback_eqb cb' cb); simpl; lia.
Qed.

Lemma clear_lines_bounded n g ls : forall h,
  bounded n h -> bounded n (fold_left (clear_line g) ls h).
Proof.
  induction ls as [|l ls IH]; intros h Hb; simpl; [done|].
  apply IH. unfold clear_line.
  eapply bounded_retouched; [apply retouched_dispose_line|]. by apply bounded_remove.
Qed.

Lemma create_lines_closed locs g conns : forall (h : Heap) ls progress index,
  (g < length h)%nat -> closed h = true ->
  closed (fst (fst (forEach_from (create_line locs g) conns index (h, ls, progress)))) = true.
Proof.
  induction conns as [|c conns IH]; intros h ls progress index Hg Hc; [done|].
  cbn [forEach_from]. destruct (resolve locs c) as [[f t]|] eqn:Hr.
  - rewrite (create_line_resolved _ _ _ _ _ _ _ f t) by done. apply IH.
    + rewrite length_app, length_alter. lia.
    + apply closed_bounded in Hc. apply closed_bounded.
      rewrite length_app, length_alter. cbn [length].
      apply bounded_app. split.
      * apply bounded_add; [lia|]. eapply bounded_mono; [|exact Hc]. lia.
      * unfold bounded. repeat constructor.
  - rewrite create_line_unresolved by done. by apply IH.
Qed.

(** A rebuild leaves no dangling child. *)
Lemma createLines_closed now locs conns scene (w : World) :
  closed (heap w) = true -> closed (heap (createLines now locs conns scene w)) = true.
Proof.
  intros Hc. unfold createLines. destruct scene as [s|]; [|done].
  destruct (findGlobeGroup (heap w) s) as [g|] eqn:Hfind; [|done].
  destruct (findGlobeGroup_Some _ _ _ Hfind) as ((og & Hg & _) & _).
  destruct (clear_lines_spec g (lines (state w)) (heap w)) as (L1 & _).
  unfold forEach.
  pose proof (create_lines_closed locs g conns
                (fold_left (clear_line g) (lines (state w)) (heap w)) []
                (lineProgress (state w)) 0) as H.
  destruct (forEach_from (create_line locs g) conns 0 _) as [[h2 ls2] pr2].
  match goal with |- context [animate now ?x] =>
    destruct (animate_spec now x) as (_ & R & _)
  end.
  eapply closed_retouched; [exact R|]. apply H.
  - rewrite L1. by eapply lookup_lt_Some.
  - apply closed_bounded. rewrite L1. apply clear_lines_bounded. by apply closed_bounded.
Qed.

End WithEngine.
End LineFacts.


(* ===================================================================== *)
(** ** The page *)
(* ===================================================================== *)

Module PageFacts.
Import Three Browser HeapDefs HeapFacts MarkerDefs MarkerFacts LineDefs LineFacts Page PageDefs.

Ltac host_view := unfold same_host_view; simpl; auto.

Section WithPlatform.
Context {js : Math.Engine} {lib : Globe.Library}.

Lemma same_host_view_refl w : same_host_view w w.
Proof. by split_and!. Qed.

Lemma same_host_view_trans w1 w2 w3 :
  same_host_view w1 w2 -> same_host_view w2 w3 -> same_host_view w1 w3.
Proof. intros (? & ? & ?) (? & ? & ?). split_and!; congruence. Qed.

Lemma is_Scene_evolves g h h' s : evolves g h h' -> is_Scene h s = true -> is_Scene h' s = true.
Proof.
  rewrite !is_Scene_spec. intros [_ E] (o & Ho & Ko).
  destruct (E s o Ho) as (o' & Ho' & Ko' & _). exists o'. split; congruence.
Qed.

(** The search keeps succeeding while the heap evolves around the group. *)
Lemma Published_evolves w w' :
  Globe.scene (host w') = Globe.scene (host w) ->
  Globe.globeGroup (host w') = Globe.globeGroup (host w) ->
  (forall s g, Globe.scene (host w) = Some s -> findGlobeGroup (heap w) s = Some g ->
     evolves g (heap w) (heap w')) ->
  Published w -> Published w'.
Proof.
  intros Hsc Hgg E (s & g & Hs & Hg & HS & Hfind & Hv).
  specialize (E s g Hs Hfind).
  destruct (findGlobeGroup_Some _ _ _ Hfind) as (Hgo & _ & Hlt).
  assert (Hne : s <> g).
  { apply (scene_not_group (heap w)); [done|]. by apply instanceof_Group_spec. }
  exists s, g. split_and!; try congruence.
  - by apply (is_Scene_evolves g (heap w)).
  - rewrite <- Hfind. by apply (evolves_findGlobeGroup g).
  - rewrite (evolves_childrenOf g _ _ s E Hne Hlt).
    eapply Forall_impl; [exact Hv|]. intros c Hc. destruct E as [L _]. simpl in *. lia.
Qed.

Lemma Inv_steady w w' :
  Globe.suspended (Globe.pc (host w)) = true ->
  same_host_view w w' ->
  (forall s g, Globe.scene (host w) = Some s -> findGlobeGroup (heap w) s = Some g ->
     evolves g (heap w) (heap w')) ->
  Inv w -> Inv w'.
Proof.
  intros Hsus Hview E. pose proof Hview as (Hpc & Hsc & Hgg).
  unfold Inv. rewrite Hpc, Hsc.
  destruct (Globe.pc (host w)); try discriminate Hsus; auto.
  - by apply Published_evolves.
  - intros [?|?]; [by left|right]. by apply (Published_evolves w).
  - by apply Published_evolves.
Qed.

Lemma markers_rebuild_steady w :
  same_host_view w (markers_rebuild w) /\
  (forall s g, Globe.scene (host w) = Some s -> findGlobeGroup (heap w) s = Some g ->
     evolves g (heap w) (heap (markers_rebuild w))).
Proof.
  unfold markers_rebuild. split.
  - destruct (Markers.createMarkers _ _ _ _). host_view.
  - intros s g Hs Hfind. rewrite Hs.
    destruct (createMarkers_spec (locations w) s g (heap w) (markers w) Hfind)
      as (h' & -> & _ & E & _). exact E.
Qed.

Lemma lines_rebuild_steady now w :
  same_host_view w (lines_rebuild now w) /\
  (forall s g, Globe.scene (host w) = Some s -> findGlobeGroup (heap w) s = Some g ->
     evolves g (heap w) (heap (lines_rebuild now w))).
Proof.
  unfold lines_rebuild. split; [host_view|].
  intros s g Hs Hfind. rewrite Hs.
  destruct (createLines_spec now (locations w) (connections w) s g (lines_world w) Hfind)
    as (_ & _ & E & _). exact E.
Qed.

(** Whatever the library's [update()] does to the camera and to the
    controller, the other refs of the host are not its to touch. *)
Lemma update_controls_spec (st : Globe.State) :
  let st' := Globe.update_controls st in
  Globe.pc st' = Globe.pc st /\
  Globe.scene st' = Globe.scene st /\
  Globe.globeGroup st' = Globe.globeGroup st /\
  Globe.renderer st' = Globe.renderer st /\
  Globe.animationFrameId st' = Globe.animationFrameId st /\
  Globe.isDragging st' = Globe.isDragging st /\
  Globe.focus_timer st' = Globe.focus_timer st /\
  (Globe.camera st' = None <-> Globe.camera st = None) /\
  (Globe.controls st' = None <-> Globe.controls st = None).
Proof.
  unfold Globe.update_controls.
  destruct (Globe.camera st) as [cam|] eqn:Hc; [|by rewrite Hc].
  destruct (Globe.controls st) as [c|] eqn:Hk; [|by rewrite Hc, Hk].
  destruct (Globe.update cam c) as [cam' c']. cbn. by split_and!.
Qed.

Lemma globe_animate_spec (gw : Globe.World) :
  let gw' := Globe.animate gw in
  Globe.pc (Globe.state gw') = Globe.pc (Globe.state gw) /\
  Globe.scene (Globe.state gw') = Globe.scene (Globe.state gw) /\
  Globe.globeGroup (Globe.state gw') = Globe.globeGroup (Globe.state gw) /\
  retouched (Globe.heap gw) (Globe.heap gw').
Proof.
  unfold Globe.animate.
  destruct (Globe.scene (Globe.state gw)) eqn:Hs; [|auto using retouched_refl].
  destruct (Globe.camera (Globe.state gw)); [|auto using retouched_refl].
  destruct (Globe.renderer (Globe.state gw)); [|auto using retouched_refl].
  destruct (Globe.globeGroup (Globe.state gw)) eqn:Hg; [|auto using retouched_refl].
  unfold requestAnimationFrame.
  match goal with |- context [Globe.update_controls ?x] =>
    destruct (update_controls_spec x) as (Hpc & Hsc & Hgg & _ & _ & Hdr & _)
  end.
  cbn [Globe.state Globe.heap Globe.pc Globe.scene Globe.globeGroup Globe.set_renderer].
  rewrite Hpc, Hsc, Hgg, Hdr. cbn. split_and!; auto.
  destruct (Globe.isDragging (Globe.state gw)); [apply retouched_refl|].
  apply retouched_alter. intros o _. unfold kind, obj_disposed. simpl. auto.
Qed.

Lemma run_callback_steady now cb w :
  same_host_view w (run_callback now cb w) /\
  retouched (heap w) (heap (run_callback now cb w)).
Proof.
  destruct cb; simpl.
  - destruct (globe_animate_spec (host_world w)) as (? & ? & ? & ?).
    unfold same_host_view. simpl. auto.
  - destruct (LineFacts.animate_spec now (lines_world w)) as (_ & R & _).
    split; [host_view|exact R].
Qed.

Lemma run_callbacks_steady (now : nat -> float) cbs : forall k w,
  let w' := forEach_from (fun w (p : nat * Callback) k => run_callback (now k) (snd p) w)
              cbs k w in
  same_host_view w w' /\ retouched (heap w) (heap w').
Proof.
  induction cbs as [|cb cbs IH]; intros k w; cbn [forEach_from].
  - split; [apply same_host_view_refl|apply retouched_refl].
  - destruct (run_callback_steady (now k) (snd cb) w) as [V1 R1].
    destruct (IH (S k) (run_callback (now k) (snd cb) w)) as [V2 R2].
    split; [by eapply same_host_view_trans|by eapply retouched_trans].
Qed.

Lemma run_frame_steady now w :
  same_host_view w (run_frame now w) /\ retouched (heap w) (heap (run_frame now w)).
Proof.
  unfold run_frame, forEach.
  match goal with |- context [forEach_from ?f ?cbs 0%nat ?w0] =>
    destruct (run_callbacks_steady now cbs 0%nat w0) as [V R]
  end.
  split; [exact V|exact R].
Qed.

Lemma focusOnMarkers_view locs st :
  Globe.pc (Globe.focusOnMarkers locs st) = Globe.pc st /\
  Globe.scene (Globe.focusOnMarkers locs st) = Globe.scene st /\
  Globe.globeGroup (Globe.focusOnMarkers locs st) = Globe.globeGroup st.
Proof.
  unfold Globe.focusOnMarkers. destruct locs; [done|].
  destruct (Globe.controls st); [|done].
  match goal with |- context [Globe.update_controls ?x] =>
    destruct (update_controls_spec x) as (-> & -> & -> & _)
  end.
  by destruct (Globe.camera st).
Qed.

Lemma recolor_retouched m c h h' : Markers.recolor m c h = Some h' -> retouched h h'.
Proof.
  unfold Markers.recolor. destruct (childrenOf h m) as [|sp rest]; [done|].
  destruct (h !! sp) as [[d p r cs]|] eqn:Hs; [|done].
  destruct d; try done; intros [= <-]; apply retouched_alter;
    intros o Ho; rewrite Hs in Ho; injection Ho as <-;
    unfold kind, obj_disposed; simpl; auto.
Qed.

Lemma hover_steady index isHovered w :
  same_host_view w (hover index isHovered w) /\
  retouched (heap w) (heap (hover index isHovered w)).
Proof.
  split; [host_view|].
  unfold hover, Markers.handleMarkerHover.
  destruct isHovered; cbn [Markers.markers Markers.state Markers.heap];
    (destruct (array_get _ index) as [m|]; [|apply retouched_refl]);
    (destruct (Markers.recolor m _ _) eqn:Hre;
       [by apply recolor_retouched in Hre|apply retouched_refl]).
Qed.

Lemma is_Scene_new_Scene (h : Heap) :
  is_Scene (fst (new Scene h)) (length h) = true /\
  childrenOf (fst (new Scene h)) (length h) = [].
Proof.
  unfold is_Scene, childrenOf, new. cbn [fst].
  rewrite lookup_app_r by lia. by rewrite Nat.sub_diag.
Qed.

Lemma Created_app w w' l :
  Globe.scene (host w') = Globe.scene (host w) -> heap w' = heap w ++ l ->
  Created w -> Created w'.
Proof.
  intros Hsc Hh (s & Hs & HS & Hc). exists s. rewrite Hsc, Hh.
  assert (Hlt : (s < length (heap w))%nat).
  { apply is_Scene_spec in HS as (o & Ho & _). by eapply lookup_lt_Some. }
  split_and!; auto.
  - unfold is_Scene in *. by rewrite lookup_app_l.
  - by rewrite childrenOf_app_l.
Qed.

Lemma find_app_Some {A} (f : A -> bool) l l' x :
  List.find f l = Some x -> List.find f (l ++ l') = Some x.
Proof.
  induction l as [|y l IH]; simpl; [done|]. destruct (f y); auto.
Qed.

(** The host adds a new object to the scene: the search still ends at the
    group. *)
Lemma Published_scene_push w w' o :
  Globe.scene (host w') = Globe.scene (host w) ->
  Globe.globeGroup (host w') = Globe.globeGroup (host w) ->
  (forall s, Globe.scene (host w) = Some s ->
     heap w' = alter (fun ob => set_children (children ob ++ [length (heap w)]) ob) s (heap w)
                 ++ [o]) ->
  Published w -> Published w'.
Proof.
  intros Hsc Hgg Hh (s & g & Hs & Hg & HS & Hfind & Hv).
  specialize (Hh s Hs).
  assert (Hlt : (s < length (heap w))%nat).
  { apply is_Scene_spec in HS as (os & Ho & _). by eapply lookup_lt_Some. }
  assert (E : evolves s (heap w) (heap w')).
  { rewrite Hh. eapply evolves_trans; [apply (evolves_add s (length (heap w)))|].
    apply evolves_app. }
  assert (Hch : childrenOf (heap w') s = childrenOf (heap w) s ++ [length (heap w)]).
  { rewrite Hh, childrenOf_app_l by (by rewrite length_alter).
    by apply (childrenOf_add s). }
  assert (Hlen : length (heap w') = S (length (heap w))).
  { rewrite Hh, length_app, length_alter. simpl. lia. }
  exists s, g. split_and!; try congruence.
  - by apply (is_Scene_evolves s (heap w)).
  - unfold findGlobeGroup. rewrite Hch. apply find_app_Some.
    rewrite <- Hfind. unfold findGlobeGroup. apply find_ext_Forall.
    eapply Forall_impl; [exact Hv|]. intros c Hc. by apply (evolves_instanceof_Group s).
  - rewrite Hch, Hlen. apply Forall_app. split.
    + eapply Forall_impl; [exact Hv|]. intros c Hc. simpl in *. lia.
    + repeat constructor.
Qed.

Lemma Inv_initScene_step w : Inv w -> Inv (initScene_step w).
Proof.
  destruct w as [h st ms ls fr cur locs conns].
  destruct st as [cont sc cam ren sph tex gg ctl drag afid ft pc].
  unfold Inv, initScene_step, Globe.initScene_step. cbn [host heap host_world Globe.state Globe.heap Globe.pc Globe.frames].
  destruct pc; cbn.
  - (* Unmounted *) intros ->. destruct cont; cbn; auto.
  - (* L72 *) intros _. exists (length h). cbn. destruct (is_Scene_new_Scene h). auto.
  - (* L75 *) intros H; exact H.
  - (* L84 *) intros H; exact H.
  - (* L96 *) intros H. split.
    + eapply (Created_app _ _ [_]); [| |exact H]; reflexivity.
    + exists (length h). split; [done|]. unfold instanceof_Group. cbn.
      rewrite lookup_app_r by lia. by rewrite Nat.sub_diag.
  - (* L97 *) intros [(s & Hs & HS & Hc) (g & Hg & HG)]. cbn in *. subst sc gg. cbn.
    assert (Hlt : (s < length h)%nat).
    { apply is_Scene_spec in HS as (o & Ho & _). by eapply lookup_lt_Some. }
    assert (Hgl : (g < length h)%nat).
    { apply instanceof_Group_spec in HG as (o & Ho & _). by eapply lookup_lt_Some. }
    pose proof (evolves_add s g h) as E.
    exists s, g. cbn. split_and!; auto.
    + by apply (is_Scene_evolves s h).
    + unfold findGlobeGroup. rewrite childrenOf_add, Hc by done. cbn.
      by rewrite (evolves_instanceof_Group s h _ g E Hgl), HG.
    + rewrite childrenOf_add, Hc by done. cbn. unfold add. rewrite length_alter.
      repeat constructor. done.
  - (* L101 *) intros H; exact H.
  - (* Awaiting *) intros H; exact H.
  - (* L104 *) intros H. pose proof H as (s & g & Hs & Hg & _). cbn in Hs, Hg. subst sc gg.
    eapply Published_evolves; [| | |exact H]; [done|done|]. cbn. intros s' g' [= <-] Hfind.
    destruct H as (s0 & g0 & [= <-] & [= <-] & _ & Hf0 & _). cbn in Hf0.
    assert (g' = g) as -> by congruence.
    eapply evolves_trans; [eapply evolves_app|apply evolves_add].
  - (* L116 *) intros H. pose proof H as (s & g & Hs & Hg & HS & _). cbn in Hs, Hg, HS.
    subst sc gg.
    assert (Hlt : (s < length h)%nat).
    { apply is_Scene_spec in HS as (o & Ho & _). by eapply lookup_lt_Some. }
    eapply Published_scene_push; [| | |exact H]; [done|done|]. cbn. intros s' [= <-].
    unfold add. by rewrite alter_app_l.
  - (* L119 *) intros H. pose proof H as (s & g & Hs & Hg & HS & _). cbn in Hs, Hg, HS.
    subst sc gg.
    assert (Hlt : (s < length h)%nat).
    { apply is_Scene_spec in HS as (o & Ho & _). by eapply lookup_lt_Some. }
    eapply Published_scene_push; [| | |exact H]; [done|done|]. cbn. intros s' [= <-].
    unfold add, position_copy. rewrite alter_app_at.
    rewrite alter_app_l by done. reflexivity.
  - (* L124 *) intros H. destruct cam, ren; exact H.
  - (* L146 *) intros H. destruct sc, cam, ren; exact H.
  - (* L151 *) intros H; exact H.
  - (* L154 *) intros H. right.
    match goal with |- context [Globe.animate ?gw] =>
      destruct (globe_animate_spec gw) as (Hpc & Hsc & Hgg & R); cbn in Hpc, Hsc, Hgg, R
    end.
    eapply Published_evolves; [| | |exact H].
    + cbn. by rewrite Hsc.
    + cbn. by rewrite Hgg.
    + intros s g _ _. cbn. by apply retouched_evolves.
  - (* Finished *) intros H; exact H.
  - (* Failed *) intros H; exact H.
Qed.

Lemma Inv_step w w' : step w w' -> Inv w -> Inv w'.
Proof.
  intros Hstep HI. destruct Hstep.
  - by apply Inv_initScene_step.
  - unfold Inv in *. unfold texture_fails. cbn. rewrite H in HI.
    destruct HI as (s & g & ?). exists s, g. done.
  - destruct (markers_rebuild_steady w) as [V E]. by apply (Inv_steady w).
  - destruct (lines_rebuild_steady now w) as [V E]. by apply (Inv_steady w).
  - apply (Inv_steady w); auto; [host_view|]. intros. apply evolves_refl.
  - destruct (run_frame_steady now w) as [V E]. apply (Inv_steady w); auto.
    intros. by apply retouched_evolves.
  - apply (Inv_steady w); auto.
    + unfold same_host_view, focus_timer_fires. cbn.
      destruct (focusOnMarkers_view (locations w) (Globe.set_focus_timer false (host w)))
        as (-> & -> & ->). done.
    + intros. apply evolves_refl.
  - destruct (hover_steady index isHovered w) as [V E]. apply (Inv_steady w); auto.
    intros. by apply retouched_evolves.
  - apply (Inv_steady w); auto; [host_view|]. intros. apply evolves_refl.
Qed.

Lemma Inv_reachable w : reachable w -> Inv w.
Proof.
  induction 1 as [container locs conns|w w' _ IH Hstep].
  - reflexivity.
  - by apply (Inv_step w).
Qed.

Lemma Inv_is_Scene w s :
  Inv w -> scene_handle w = Some s -> is_Scene (heap w) s = true.
Proof.
  unfold Inv, scene_handle. intros HI Hs.
  assert (Created w \/ Published w) as [(s' & Hs' & HS & _)|(s' & g & Hs' & _ & HS & _)].
  { destruct (Globe.pc (host w)); try congruence; auto; destruct HI; auto; congruence. }
  - congruence.
  - congruence.
Qed.

Lemma closed_new d (h : Heap) : closed h = true -> closed (fst (new d h)) = true.
Proof.
  rewrite !closed_bounded. intros Hb. unfold new. cbn [fst].
  rewrite length_app. apply bounded_app. split.
  - eapply bounded_mono; [|exact Hb]. lia.
  - unfold bounded. repeat constructor.
Qed.

Lemma closed_add p c (h : Heap) :
  (c < length h)%nat -> closed h = true -> closed (add p c h) = true.
Proof.
  rewrite !closed_bounded. intros Hc Hb. unfold add at 1. rewrite length_alter.
  by apply bounded_add.
Qed.

Lemma closed_initScene_step w :
  Inv w -> closed (heap w) = true -> closed (heap (initScene_step w)) = true.
Proof.
  destruct w as [h st ms ls fr cur locs conns].
  destruct st as [cont sc cam ren sph tex gg ctl drag afid ft pc].
  unfold Inv, initScene_step, Globe.initScene_step.
  cbn [host heap host_world Globe.state Globe.heap Globe.pc Globe.frames].
  destruct pc; cbn; intros HI Hc; try exact Hc.
  - (* Unmounted *) by destruct cont.
  - (* L72 *) by apply (closed_new Scene).
  - (* L96 *) by apply (closed_new Group).
  - (* L97 *) destruct HI as [_ (g & Hg & HG)]. cbn in Hg. subst gg.
    destruct sc as [s|]; cbn; [|done]. apply closed_add; [|done].
    apply instanceof_Group_spec in HG as (o & Ho & _). by eapply lookup_lt_Some.
  - (* L104 *) destruct gg as [g|]; cbn.
    + apply closed_add; [rewrite length_app; simpl; lia|]. by apply (closed_new (Mesh _ _)).
    + by apply (closed_new (Mesh _ _)).
  - (* L116 *) destruct sc as [s|]; cbn.
    + apply closed_add; [rewrite length_app; simpl; lia|].
      by apply (closed_new (AmbientLight _ _)).
    + by apply (closed_new (AmbientLight _ _)).
  - (* L119 *)
    assert (Hp : closed (position_copy (length h) (Vector3.mk 5 3 5)
                           (fst (new (PointLight "0xffffff" 1 0) h))) = true).
    { pose proof (closed_new (PointLight "0xffffff" 1 0) h Hc) as Hn.
      apply closed_bounded in Hn. apply closed_bounded.
      unfold position_copy. rewrite length_alter. by apply bounded_alter. }
    destruct sc as [s|]; cbn; [|exact Hp].
    apply closed_add; [|exact Hp].
    unfold position_copy. rewrite length_alter. unfold new. cbn [fst].
    rewrite length_app. simpl. lia.
  - (* L124 *) by destruct cam, ren.
  - (* L146 *) by destruct sc, cam, ren.
  - (* L154 *)
    match goal with |- context [Globe.animate ?gw] =>
      destruct (globe_animate_spec gw) as (_ & _ & _ & R); cbn in R
    end.
    by eapply closed_retouched.
Qed.

Lemma camera_with_controls_animate (gw : Globe.World) :
  camera_with_controls (Globe.state gw) ->
  camera_with_controls (Globe.state (Globe.animate gw)).
Proof.
  unfold camera_with_controls, Globe.animate.
  destruct (Globe.scene (Globe.state gw)); [|done].
  destruct (Globe.camera (Globe.state gw)) eqn:Hcam; [|by rewrite Hcam].
  destruct (Globe.renderer (Globe.state gw)); [|by rewrite Hcam].
  destruct (Globe.globeGroup (Globe.state gw)); [|by rewrite Hcam].
  unfold requestAnimationFrame.
  match goal with |- context [Globe.update_controls ?x] =>
    destruct (update_controls_spec x) as (_ & _ & _ & _ & _ & _ & _ & Hc' & _)
  end.
  cbn [Globe.state Globe.camera Globe.controls Globe.set_renderer fst snd] in *.
  intros _ _ H. apply Hc' in H. cbn in H. congruence.
Qed.

Lemma camera_with_controls_focus locs st :
  camera_with_controls st -> camera_with_controls (Globe.focusOnMarkers locs st).
Proof.
  unfold camera_with_controls, Globe.focusOnMarkers. destruct locs; [done|].
  destruct (Globe.controls st) eqn:Hc; [|by rewrite Hc].
  match goal with |- context [Globe.update_controls ?x] =>
    destruct (update_controls_spec x) as (_ & _ & _ & _ & _ & _ & _ & Hc' & _)
  end.
  intros H _. rewrite Hc'. destruct (Globe.camera st) eqn:Hcam; cbn; [done|].
  rewrite Hcam. by apply H.
Qed.

Lemma camera_with_controls_initScene_step w :
  camera_with_controls (host w) -> camera_with_controls (host (initScene_step w)).
Proof.
  destruct w as [h st ms ls fr cur locs conns].
  destruct st as [cont sc cam ren sph tex gg ctl drag afid ft pc].
  unfold initScene_step, Globe.initScene_step.
  cbn [host heap host_world Globe.state Globe.heap Globe.pc Globe.frames].
  destruct pc; cbn; intros H; try exact H.
  - by destruct cont.
  - unfold camera_with_controls. cbn. done.
  - destruct sc, gg; exact H.
  - destruct cam, ren; try exact H. unfold camera_with_controls. cbn. done.
  - destruct sc, cam, ren; exact H.
  - match goal with |- context [Globe.animate ?gw] =>
      pose proof (camera_with_controls_animate gw H) as H'
    end.
    exact H'.
Qed.

Lemma camera_with_controls_callbacks (now : nat -> float) cbs : forall k w,
  camera_with_controls (host w) ->
  camera_with_controls
    (host (forEach_from (fun w (p : nat * Callback) k => run_callback (now k) (snd p) w)
             cbs k w)).
Proof.
  induction cbs as [|[handle cb] cbs IH]; intros k w H; cbn [forEach_from]; [done|].
  apply IH. destruct cb; cbn [snd run_callback]; [|exact H].
  apply (camera_with_controls_animate (host_world w) H).
Qed.

Lemma WellFormed_step w w' : step w w' -> Inv w -> WellFormed w -> WellFormed w'.
Proof.
  intros Hstep HI (Hc & _ & Hcc).
  pose proof (Inv_step w w' Hstep HI) as HI'.
  split_and!; [| intros s; by apply Inv_is_Scene |]; destruct Hstep.
  - by apply closed_initScene_step.
  - exact Hc.
  - unfold markers_rebuild.
    pose proof (createMarkers_closed (locations w) (Globe.scene (host w)) (heap w)
                  (markers w) Hc) as Hcm.
    by destruct (Markers.createMarkers _ _ _ _).
  - by apply (createLines_closed now _ _ _ (lines_world w)).
  - exact Hc.
  - destruct (run_frame_steady now w) as [_ R]. by eapply closed_retouched.
  - exact Hc.
  - destruct (hover_steady index isHovered w) as [_ R]. by eapply closed_retouched.
  - exact Hc.
  - by apply camera_with_controls_initScene_step.
  - exact Hcc.
  - unfold markers_rebuild. by destruct (Markers.createMarkers _ _ _ _).
  - exact Hcc.
  - exact Hcc.
  - unfold run_frame, forEach. by apply camera_with_controls_callbacks.
  - unfold focus_timer_fires. cbn [host]. by apply camera_with_controls_focus.
  - exact Hcc.
  - exact Hcc.
Qed.

(** The hypotheses of the rebuild and framing theorems hold in every state
    the page can reach: no object names a child outside the heap, the
    scene handle names a scene, and the camera exists whenever the
    controller does. *)
Lemma reachable_well_formed w : reachable w -> WellFormed w.
Proof.
  induction 1 as [container locs conns|w w' Hr IH Hstep].
  - split_and!; [done|done|]. unfold camera_with_controls. cbn. done.
  - apply (WellFormed_step w); auto. by apply Inv_reachable.
Qed.

End WithPlatform.
End PageFacts.


(* ===================================================================== *)
(** ** Rebuilds *)
(* ===================================================================== *)

Section Rebuilds.
Import Three HeapDefs HeapFacts MarkerDefs MarkerFacts LineDefs LineFacts.
Context {js : Math.Engine}.

Lemma marker_ids_lt L n m : m ∈ marker_ids L n -> (L <= m < L + 3 * n)%nat.
Proof.
  unfold marker_ids. rewrite list_elem_of_In, in_map_iff.
  intros (k & <- & Hk). apply in_seq in Hk. lia.
Qed.

Lemma marker_object_ok (h : Heap) loc m :
  h !! m = Some (marker_object loc m) -> h !! S m = Some sphere_object -> marker_ok h m.
Proof.
  intros Hm Hs. exists (marker_object loc m), (S m), [S (S m)], sphere_object.
  split_and!; auto.
Qed.

(** C4. With the scene handle and the globe group present, a rebuild for
    a list of [N] locations (names may repeat) leaves exactly [N] markers in
    the collection, all different objects, each a grouping node and a child
    of the globe group. *)
Theorem marker_count_invariant (locs : list Location) (s g : nat) (h : Heap)
    (st : Markers.State) :
  findGlobeGroup h s = Some g ->
  let h' := fst (Markers.createMarkers locs (Some s) h st) in
  let st' := snd (Markers.createMarkers locs (Some s) h st) in
  length (Markers.markers st') = length locs /\
  NoDup (Markers.markers st') /\
  Forall (fun m => m ∈ childrenOf h' g /\ instanceof_Group h' m = true)
         (Markers.markers st').
Proof.
  intros Hfind.
  destruct (createMarkers_spec locs s g h st Hfind) as (h' & -> & _ & _ & C & Hobj & _).
  cbn [fst snd Markers.markers]. split_and!.
  - apply length_marker_ids.
  - apply marker_ids_NoDup.
  - apply Forall_forall. intros m Hm. split.
    + rewrite C. apply elem_of_app. by right.
    + apply list_elem_of_lookup in Hm as [k Hk].
      assert (Hlt : (k < length locs)%nat).
      { apply lookup_lt_Some in Hk. by rewrite length_marker_ids in Hk. }
      rewrite marker_ids_lookup in Hk by done.
      assert (Hk' : (length h + 3 * k)%nat = m) by congruence.
      destruct (lookup_lt_is_Some_2 locs k Hlt) as [loc Hloc].
      destruct (Hobj k loc Hloc) as [Hm' _]. rewrite Hk' in Hm'.
      apply instanceof_Group_spec. eauto.
Qed.

Lemma line_points (h' : Heap) L locs conns :
  (forall k f t, resolved locs conns !! k = Some (f, t) ->
     Lines.points_of h' (L + k) = Some (Lines.arc_points f t)) ->
  map (Lines.points_of h') (seq L (length (resolved locs conns)))
    = map (fun ft => Some (Lines.arc_points (fst ft) (snd ft))) (resolved locs conns).
Proof.
  intros Hobj. apply list_eq. intros k.
  change (map ?f ?l) with (f <$> l). rewrite !list_lookup_fmap.
  destruct (resolved locs conns !! k) as [[f t]|] eqn:Hl.
  - rewrite lookup_seq_lt by (by eapply lookup_lt_Some).
    cbn [fmap option_fmap option_map fst snd]. by rewrite (Hobj k f t Hl).
  - apply lookup_ge_None in Hl. rewrite (lookup_ge_None_2 (seq _ _)); [done|].
    by rewrite length_seq.
Qed.

Lemma resolve_None locs c :
  resolve locs c = None <->
  Lines.find_location locs (from c) = None \/ Lines.find_location locs (to c) = None.
Proof.
  unfold resolve.
  destruct (Lines.find_location locs (from c)), (Lines.find_location locs (to c));
    split; try tauto; try discriminate; intros [H|H]; discriminate.
Qed.

Lemma resolved_cons locs c conns :
  resolved locs (c :: conns) =
    match resolve locs c with
    | Some ft => ft :: resolved locs conns
    | None => resolved locs conns
    end.
Proof. reflexivity. Qed.

(** C3. A rebuild of the line layer builds one arc for each connection
    whose two names are found among the locations, in input order, whatever
    unresolved connections come before; a connection with a name that is not
    found gets no arc and stops nothing (the rebuild is a total function).
    With locations A and B and the one connection A -> C no arc is built. *)
Theorem unresolved_connections_skipped :
  (forall now locs conns s g (w : Lines.World),
     findGlobeGroup (Lines.heap w) s = Some g ->
     let w' := Lines.createLines now locs conns (Some s) w in
     length (Lines.lines (Lines.state w')) = length (resolved locs conns) /\
     map (Lines.points_of (Lines.heap w')) (Lines.lines (Lines.state w'))
       = map (fun ft => Some (Lines.arc_points (fst ft) (snd ft))) (resolved locs conns) /\
     Forall (fun l => l ∈ childrenOf (Lines.heap w') g) (Lines.lines (Lines.state w'))) /\
  (forall locs c conns,
     (Lines.find_location locs (from c) = None \/ Lines.find_location locs (to c) = None) ->
     resolved locs (c :: conns) = resolved locs conns) /\
  (forall locs c conns fromLocation toLocation,
     Lines.find_location locs (from c) = Some fromLocation ->
     Lines.find_location locs (to c) = Some toLocation ->
     resolved locs (c :: conns) = (fromLocation, toLocation) :: resolved locs conns) /\
  (forall now latA lngA latB lngB s g (w : Lines.World),
     findGlobeGroup (Lines.heap w) s = Some g ->
     let w' := Lines.createLines now
                 [ {| name := "A"; lat := latA; lng := lngA |};
                   {| name := "B"; lat := latB; lng := lngB |} ]
                 [ {| from := "A"; to := "C" |} ] (Some s) w in
     Lines.lines (Lines.state w') = [] /\
     length (Lines.heap w') = length (Lines.heap w)).
Proof.
  split_and!.
  - intros now locs conns s g w Hfind.
    destruct (createLines_spec now locs conns s g w Hfind)
      as (Hls & _ & _ & C & Hpts & _).
    cbv zeta. rewrite Hls. split_and!.
    + apply length_seq.
    + by apply line_points.
    + apply Forall_forall. intros l Hl. rewrite C. apply elem_of_app. by right.
  - intros locs c conns H. rewrite resolved_cons.
    apply resolve_None in H. by rewrite H.
  - intros locs c conns f t Hf Ht. rewrite resolved_cons. unfold resolve.
    by rewrite Hf, Ht.
  - intros now latA lngA latB lngB s g w Hfind.
    match goal with |- context [Lines.createLines now ?l ?c] =>
      destruct (createLines_spec now l c s g w Hfind) as (Hls & Hlen & _)
    end.
    cbv zeta. rewrite Hls, Hlen. split; [reflexivity|]. simpl. lia.
Qed.

End Rebuilds.

Section Rebuilds_witnesses.
Import Three HeapDefs HeapFacts MarkerDefs MarkerFacts LineDefs LineFacts.
#[local] Existing Instance Samples.engine.

Lemma marker_count_invariant_witness :
  findGlobeGroup Samples.bare_scene 0 = Some 1%nat /\
  length (Markers.markers
            (snd (Markers.createMarkers [Samples.A; Samples.B; Samples.A] (Some 0%nat)
                    Samples.bare_scene Markers.initial))) = 3%nat.
Proof.
  split; [reflexivity|].
  apply (marker_count_invariant [Samples.A; Samples.B; Samples.A] 0 1
           Samples.bare_scene Markers.initial).
  reflexivity.
Defined.


Lemma unresolved_connections_skipped_witness :
  findGlobeGroup (Lines.heap Samples.bare_lines) 0 = Some 1%nat /\
  map (Lines.points_of
         (Lines.heap (Lines.createLines 0 [Samples.A; Samples.B]
                        [Samples.A_to_C; Samples.A_to_B] (Some 0%nat) Samples.bare_lines)))
      (Lines.lines
         (Lines.state (Lines.createLines 0 [Samples.A; Samples.B]
                         [Samples.A_to_C; Samples.A_to_B] (Some 0%nat) Samples.bare_lines)))
    = [Some (Lines.arc_points Samples.A Samples.B)].
Proof.
  split; [reflexivity|].
  apply (proj1 unresolved_connections_skipped 0 [Samples.A; Samples.B]
           [Samples.A_to_C; Samples.A_to_B] 0%nat 1%nat Samples.bare_lines).
  reflexivity.
Defined.

End Rebuilds_witnesses.


Section Idempotence.
Import Three HeapDefs HeapFacts MarkerDefs MarkerFacts LineDefs LineFacts.
Context {js : Math.Engine}.

Lemma findGlobeGroup_evolves g (h h' : Heap) s :
  closed h = true -> is_Scene h s = true -> findGlobeGroup h s = Some g ->
  evolves g h h' -> findGlobeGroup h' s = Some g.
Proof.
  intros Hc Hs Hfind E. rewrite <- Hfind.
  destruct (findGlobeGroup_Some _ _ _ Hfind) as (Hg & _ & Hlt).
  apply (evolves_findGlobeGroup g); auto using closed_children.
  apply (scene_not_group h); [done|]. by apply instanceof_Group_spec.
Qed.

(** Two marker rebuilds in a row. *)
Lemma createMarkers_twice locs s g (h : Heap) st :
  closed h = true -> is_Scene h s = true -> findGlobeGroup h s = Some g ->
  let once := Markers.createMarkers locs (Some s) h st in
  let twice := Markers.createMarkers locs (Some s) (fst once) (snd once) in
  length (Markers.markers (snd twice)) = length (Markers.markers (snd once)) /\
  map (Markers.position_of (fst twice)) (Markers.markers (snd twice))
    = map (Markers.position_of (fst once)) (Markers.markers (snd once)) /\
  childrenOf (fst once) g = childrenOf h g ++ Markers.markers (snd once) /\
  childrenOf (fst twice) g
    = childrenOf h g ++ Markers.markers (snd once) ++ Markers.markers (snd twice) /\
  NoDup (Markers.markers (snd once) ++ Markers.markers (snd twice)) /\
  Forall (fun m => m ∈ childrenOf (fst twice) g /\ marker_disposed (fst twice) m)
         (Markers.markers (snd once)).
Proof.
  intros Hc Hs Hfind.
  destruct (createMarkers_spec locs s g h st Hfind)
    as (h1 & Eq1 & L1 & E1 & C1 & Hobj1 & _).
  pose proof (findGlobeGroup_evolves g h h1 s Hc Hs Hfind E1) as Hfind1.
  cbv zeta. rewrite Eq1. cbn [fst snd].
  destruct (createMarkers_spec locs s g h1
              {| Markers.markers := marker_ids (length h) (length locs);
                 Markers.hoveredMarker := Markers.hoveredMarker st |} Hfind1)
    as (h2 & Eq2 & L2 & E2 & C2 & Hobj2 & D2).
  rewrite Eq2. cbn [fst snd Markers.markers] in *.
  rewrite C1, <- app_assoc in C2.
  split_and!.
  - by rewrite !length_marker_ids.
  - rewrite (marker_positions h2 (length h1) locs), (marker_positions h1 (length h) locs);
      [done| |]; intros k loc Hl; [by apply Hobj1|by apply Hobj2].
  - exact C1.
  - exact C2.
  - apply NoDup_app. split_and!; [apply marker_ids_NoDup| |apply marker_ids_NoDup].
    intros m Hm Hm'. apply marker_ids_lt in Hm, Hm'. lia.
  - apply Forall_forall. intros m Hm. split.
    + rewrite C2, !elem_of_app. auto.
    + assert (Hok : Forall (fun m => m <> g /\ marker_ok h1 m)
                      (marker_ids (length h) (length locs))).
      { assert (Hglt : (g < length h)%nat).
        { destruct (findGlobeGroup_Some _ _ _ Hfind) as ((o & Ho & _) & _).
          by eapply lookup_lt_Some. }
        apply Forall_forall. intros m' Hm'. split.
        - apply marker_ids_lt in Hm'. lia.
        - apply list_elem_of_lookup in Hm' as [k Hk].
          assert (Hlt : (k < length locs)%nat).
          { apply lookup_lt_Some in Hk. by rewrite length_marker_ids in Hk. }
          rewrite marker_ids_lookup in Hk by done.
          assert (Hk' : (length h + 3 * k)%nat = m') by congruence.
          destruct (lookup_lt_is_Some_2 locs k Hlt) as [loc Hloc].
          destruct (Hobj1 k loc Hloc) as [Hm1 Hs1]. rewrite Hk' in Hm1, Hs1.
          by eapply marker_object_ok. }
      specialize (D2 Hok). rewrite Forall_forall in D2. by apply D2.
Qed.

Lemma points_of_line_ok (h : Heap) l pts : Lines.points_of h l = Some pts -> line_ok h l.
Proof.
  unfold Lines.points_of, line_ok, kind. destruct (h !! l) as [[d p r cs]|]; [|done].
  destruct d; try done. intros _. eexists; split; [done|]. done.
Qed.

(** Two line rebuilds in a row (the clock may have moved). *)
Lemma createLines_twice now now' locs conns s g (w : Lines.World) :
  closed (Lines.heap w) = true -> is_Scene (Lines.heap w) s = true ->
  findGlobeGroup (Lines.heap w) s = Some g ->
  let once := Lines.createLines now locs conns (Some s) w in
  let twice := Lines.createLines now' locs conns (Some s) once in
  length (Lines.lines (Lines.state twice)) = length (Lines.lines (Lines.state once)) /\
  map (Lines.points_of (Lines.heap twice)) (Lines.lines (Lines.state twice))
    = map (Lines.points_of (Lines.heap once)) (Lines.lines (Lines.state once)) /\
  childrenOf (Lines.heap once) g
    = childrenOf (Lines.heap w) g ++ Lines.lines (Lines.state once) /\
  childrenOf (Lines.heap twice) g
    = childrenOf (Lines.heap w) g ++ Lines.lines (Lines.state once)
        ++ Lines.lines (Lines.state twice) /\
  NoDup (Lines.lines (Lines.state once) ++ Lines.lines (Lines.state twice)) /\
  Forall (fun l => l ∈ childrenOf (Lines.heap twice) g /\ line_disposed (Lines.heap twice) l)
         (Lines.lines (Lines.state once)).
Proof.
  intros Hc Hs Hfind.
  destruct (createLines_spec now locs conns s g w Hfind)
    as (Hls1 & L1 & E1 & C1 & P1 & _ & _).
  pose proof (findGlobeGroup_evolves g _ _ s Hc Hs Hfind E1) as Hfind1.
  cbv zeta.
  set (w1 := Lines.createLines now locs conns (Some s) w) in *.
  destruct (createLines_spec now' locs conns s g w1 Hfind1)
    as (Hls2 & L2 & E2 & C2 & P2 & _ & D2).
  set (w2 := Lines.createLines now' locs conns (Some s) w1) in *.
  set (n := length (resolved locs conns)) in *.
  rewrite C1, <- app_assoc in C2.
  rewrite Hls1, Hls2. split_and!.
  - by rewrite !length_seq.
  - unfold n. rewrite !line_points; auto.
  - exact C1.
  - exact C2.
  - apply NoDup_app. split_and!; [apply NoDup_seq| |apply NoDup_seq].
    intros l Hl Hl'. apply elem_of_seq in Hl, Hl'. lia.
  - apply Forall_forall. intros l Hl. split.
    + rewrite C2, !elem_of_app. auto.
    + assert (Hok : Forall (line_ok (Lines.heap w1)) (Lines.lines (Lines.state w1))).
      { rewrite Hls1. apply Forall_forall. intros l' Hl'.
        apply list_elem_of_lookup in Hl' as [k Hk].
        assert (Hlt : (k < n)%nat).
        { apply lookup_lt_Some in Hk. by rewrite length_seq in Hk. }
        rewrite lookup_seq_lt in Hk by done.
        assert (Hk' : (length (Lines.heap w) + k)%nat = l') by congruence.
        destruct (lookup_lt_is_Some_2 (resolved locs conns) k Hlt) as [[f t] Hft].
        rewrite <- Hk'. eapply points_of_line_ok. by apply (P1 k f t). }
      specialize (D2 Hok). rewrite Hls1, Forall_forall in D2. by apply D2.
Qed.

(** C5 does not hold of the code.  With the scene handle and the globe
    group present, a second rebuild with the same locations and connections
    does give a collection of the same size with the same positions (the
    same sampled points), and it does release the geometry and the material
    of every visual of the first batch; it removes none of them.  The sweep
    reads each old visual out of a deep [ref], so [globeGroup.remove] is
    handed a reactive proxy, which [children.indexOf] does not find: after
    the second rebuild the globe group holds its former children, the whole
    first batch and the whole second batch, all different objects.  The
    heap is any heap in which no object names a child that does not exist
    and the handle names a scene, as in every state the page reaches
    ([PageFacts.reachable_well_formed]). *)
Theorem rebuild_keeps_old_visuals
    (now now' : float) (locs : list Location) (conns : list Connection)
    (s g : nat) (h : Heap) (mst : Markers.State) (lst : Lines.State) (fr : Browser.Frames) :
  closed h = true -> is_Scene h s = true -> findGlobeGroup h s = Some g ->
  let once := Markers.createMarkers locs (Some s) h mst in
  let twice := Markers.createMarkers locs (Some s) (fst once) (snd once) in
  let w := {| Lines.heap := h; Lines.state := lst; Lines.frames := fr |} in
  let lonce := Lines.createLines now locs conns (Some s) w in
  let ltwice := Lines.createLines now' locs conns (Some s) lonce in
  (length (Markers.markers (snd twice)) = length (Markers.markers (snd once)) /\
   map (Markers.position_of (fst twice)) (Markers.markers (snd twice))
     = map (Markers.position_of (fst once)) (Markers.markers (snd once)) /\
   childrenOf (fst once) g = childrenOf h g ++ Markers.markers (snd once) /\
   childrenOf (fst twice) g
     = childrenOf h g ++ Markers.markers (snd once) ++ Markers.markers (snd twice) /\
   NoDup (Markers.markers (snd once) ++ Markers.markers (snd twice)) /\
   Forall (fun m => m ∈ childrenOf (fst twice) g /\ marker_disposed (fst twice) m)
          (Markers.markers (snd once))) /\
  (length (Lines.lines (Lines.state ltwice)) = length (Lines.lines (Lines.state lonce)) /\
   map (Lines.points_of (Lines.heap ltwice)) (Lines.lines (Lines.state ltwice))
     = map (Lines.points_of (Lines.heap lonce)) (Lines.lines (Lines.state lonce)) /\
   childrenOf (Lines.heap lonce) g = childrenOf h g ++ Lines.lines (Lines.state lonce) /\
   childrenOf (Lines.heap ltwice) g
     = childrenOf h g ++ Lines.lines (Lines.state lonce)
         ++ Lines.lines (Lines.state ltwice) /\
   NoDup (Lines.lines (Lines.state lonce) ++ Lines.lines (Lines.state ltwice)) /\
   Forall (fun l => l ∈ childrenOf (Lines.heap ltwice) g /\
                    line_disposed (Lines.heap ltwice) l)
          (Lines.lines (Lines.state lonce))).
Proof.
  intros Hc Hs Hfind. split.
  - by apply createMarkers_twice.
  - by apply (createLines_twice now now' locs conns s g
                {| Lines.heap := h; Lines.state := lst; Lines.frames := fr |}).
Qed.

End Idempotence.

Section Idempotence_witnesses.
Import Three HeapDefs HeapFacts MarkerDefs MarkerFacts LineDefs LineFacts.
#[local] Existing Instance Samples.engine.

Lemma rebuild_keeps_old_visuals_witness :
  closed Samples.bare_scene = true /\
  is_Scene Samples.bare_scene 0 = true /\
  findGlobeGroup Samples.bare_scene 0 = Some 1%nat /\
  childrenOf
    (fst (Markers.createMarkers [Samples.A; Samples.B] (Some 0%nat)
            (fst (Markers.createMarkers [Samples.A; Samples.B] (Some 0%nat)
                    Samples.bare_scene Markers.initial))
            (snd (Markers.createMarkers [Samples.A; Samples.B] (Some 0%nat)
                    Samples.bare_scene Markers.initial)))) 1
    = [2; 5; 8; 11]%nat.
Proof.
  split; [reflexivity|]. split; [reflexivity|]. split; [reflexivity|].
  destruct (rebuild_keeps_old_visuals 0 1 [Samples.A; Samples.B] [Samples.A_to_B] 0 1
              Samples.bare_scene Markers.initial Lines.initial Browser.no_frames
              eq_refl eq_refl eq_refl) as [(_ & _ & _ & C & _) _].
  rewrite C. reflexivity.
Defined.

End Idempotence_witnesses.


Section Ordering.
Import Three Browser HeapDefs HeapFacts MarkerDefs MarkerFacts LineDefs LineFacts Page PageDefs PageFacts.
Context {js : Math.Engine} {lib : Globe.Library}.

(** The state two statements into [initScene]: the scene exists and is
    published, the camera is being made, the globe group is still to come. *)
Lemma scene_before_group_reachable :
  reachable (run [DoInit; DoInit] (initial (Some (800, 400)) [] [])).
Proof.
  unfold run. cbn [fold_left perform].
  eapply reachable_step; [|apply step_init].
  eapply reachable_step; [|apply step_init].
  apply reachable_initial.
Qed.

(** C1, amended. Whenever [initScene] is suspended or over (the only
    states in which a child layer runs), a non-null scene handle names a
    scene that already contains the globe group: the structural search finds
    the very group the host created, and a marker rebuild started there
    builds one marker per location. *)
Theorem scene_published_with_group (w : System) :
  reachable w ->
  Globe.suspended (Globe.pc (host w)) = true ->
  forall s, scene_handle w = Some s ->
  exists g,
    findGlobeGroup (heap w) s = Some g /\
    Globe.globeGroup (host w) = Some g /\
    length (Markers.markers (markers (markers_rebuild w))) = length (locations w).
Proof.
  intros Hr Hsus s Hs. pose proof (Inv_reachable w Hr) as HI.
  unfold scene_handle in Hs.
  assert (HP : Published w).
  { unfold Inv in HI. destruct (Globe.pc (host w)); try discriminate Hsus; auto.
    - congruence.
    - destruct HI as [HI|HI]; [congruence|done]. }
  destruct HP as (s' & g & Hs' & Hg & _ & Hfind & _).
  assert (s' = s) as -> by congruence.
  exists g. split_and!; auto.
  unfold markers_rebuild. rewrite Hs.
  destruct (createMarkers_spec (locations w) s g (heap w) (markers w) Hfind)
    as (h' & -> & _). cbn. apply length_marker_ids.
Qed.

Lemma mounted_reachable locs conns :
  reachable (run mount (initial (Some (800, 400)) locs conns)).
Proof.
  unfold run, mount. cbn [repeat fold_left perform].
  do 7 (eapply reachable_step; [|apply step_init]).
  apply reachable_initial.
Qed.

End Ordering.

Section Ordering_closed.
Import Three Browser HeapDefs HeapFacts MarkerDefs MarkerFacts LineDefs LineFacts Page PageDefs PageFacts.

(** C1, as the spec has it, fails: the handle is assigned in the first
    statement of [initScene], the globe group is added five statements
    later; in between the handle is non-null and the scene has no group,
    whatever the engine and the controller library. *)
Lemma scene_handle_set_before_group :
  ~ (exists (js : Math.Engine) (lib : Globe.Library),
       forall w, reachable w ->
         forall s, scene_handle w = Some s -> findGlobeGroup (heap w) s <> None).
Proof.
  intros (js & lib & H).
  apply (H _ scene_before_group_reachable 0%nat); reflexivity.
Qed.

#[local] Existing Instance Samples.engine.
#[local] Existing Instance Samples.library.

Lemma scene_published_with_group_witness :
  Globe.suspended
    (Globe.pc (host (run mount (initial (Some (800, 400)) [Samples.A] [])))) = true /\
  scene_handle (run mount (initial (Some (800, 400)) [Samples.A] [])) = Some 0%nat /\
  exists g,
    findGlobeGroup (heap (run mount (initial (Some (800, 400)) [Samples.A] []))) 0 = Some g.
Proof.
  split; [reflexivity|]. split; [reflexivity|].
  destruct (scene_published_with_group
              (run mount (initial (Some (800, 400)) [Samples.A] []))
              (mounted_reachable [Samples.A] []) eq_refl 0%nat eq_refl)
    as (g & Hg & _).
  exists g. exact Hg.
Defined.

End Ordering_closed.


Section Loops.
Import Three Browser HeapDefs HeapFacts LineDefs LineFacts Page PageDefs PageFacts.
Context {js : Math.Engine} {lib : Globe.Library}.

(** Every rebuild that finds the group starts one more loop. *)
Lemma createLines_adds_loop now locs conns s g (w : Lines.World) :
  findGlobeGroup (Lines.heap w) s = Some g ->
  loops LinesAnimate (Lines.frames (Lines.createLines now locs conns (Some s) w))
    = S (loops LinesAnimate (Lines.frames w)).
Proof.
  intros Hfind.
  destruct (createLines_spec now locs conns s g w Hfind) as (_ & _ & _ & _ & _ & -> & _).
  rewrite loops_request. simpl. lia.
Qed.

Lemma globe_animate_loops (gw : Globe.World) :
  loops LinesAnimate (Globe.frames (Globe.animate gw))
    = loops LinesAnimate (Globe.frames gw).
Proof.
  unfold Globe.animate.
  destruct (Globe.scene (Globe.state gw)); [|done].
  destruct (Globe.camera (Globe.state gw)); [|done].
  destruct (Globe.renderer (Globe.state gw)); [|done].
  destruct (Globe.globeGroup (Globe.state gw)); [|done].
  cbn [Globe.frames]. change (loops LinesAnimate (fst (requestAnimationFrame GlobeAnimate (Globe.frames gw))) = loops LinesAnimate (Globe.frames gw)).
  rewrite loops_request. simpl. lia.
Qed.

Lemma run_callback_loops now (p : nat * Callback) w :
  loops LinesAnimate (frames (run_callback now (snd p) w))
    = (loops LinesAnimate (frames w)
       + length (List.filter (fun q => Callback_eqb (snd q) LinesAnimate) [p]))%nat.
Proof.
  destruct p as [handle [|]]; cbn [snd run_callback List.filter Callback_eqb length].
  - unfold with_host. cbn [frames]. rewrite globe_animate_loops. cbn. lia.
  - unfold with_lines. cbn [frames].
    destruct (animate_spec now (lines_world w)) as (_ & _ & _ & ->).
    rewrite loops_request. cbn. lia.
Qed.

(** A frame runs every waiting loop once, and every loop asks for the next
    frame: no loop of the line layer ever ends by itself. *)
Lemma run_callbacks_loops (now : nat -> float) cbs : forall k w,
  loops LinesAnimate
    (frames (forEach_from (fun w (p : nat * Callback) k => run_callback (now k) (snd p) w)
               cbs k w))
  = (loops LinesAnimate (frames w)
     + length (List.filter (fun q => Callback_eqb (snd q) LinesAnimate) cbs))%nat.
Proof.
  induction cbs as [|cb cbs IH]; intros k w; cbn [forEach_from].
  - simpl. lia.
  - rewrite IH, run_callback_loops.
    change (cb :: cbs) with ([cb] ++ cbs). rewrite (List.filter_app _ [cb] cbs), length_app. lia.
Qed.

Lemma run_frame_loops now w :
  loops LinesAnimate (frames (run_frame now w)) = loops LinesAnimate (frames w).
Proof.
  unfold run_frame, forEach. rewrite run_callbacks_loops. reflexivity.
Qed.

(** [initScene] up to the texture load, then the line layer's watchers fire
    twice (the scene became available; the props changed). *)
Lemma two_rebuilds_reachable :
  reachable (run (mount ++ [DoLines 0; DoLines 16]) (initial (Some (800, 400)) [] [])).
Proof.
  unfold run, mount. cbn [repeat app fold_left perform].
  eapply reachable_step; [|apply step_lines; reflexivity].
  eapply reachable_step; [|apply step_lines; reflexivity].
  do 7 (eapply reachable_step; [|apply step_init]).
  apply reachable_initial.
Qed.

(** C6 does not hold of the code: after two rebuilds of the line layer
    two loops are alive; they are alive after every later frame; and of the
    two, [onUnmounted] cancels one. *)
Theorem line_loops_stack_up :
  let w := run (mount ++ [DoLines 0; DoLines 16]) (initial (Some (800, 400)) [] []) in
  reachable w /\
  loops LinesAnimate (frames w) = 2%nat /\
  (forall now, loops LinesAnimate (frames (run_frame now w)) = 2%nat) /\
  loops LinesAnimate (Lines.frames (Lines.onUnmounted (scene_handle w) (lines_world w)))
    = 1%nat.
Proof.
  cbv zeta. split_and!.
  - apply two_rebuilds_reachable.
  - reflexivity.
  - intros now. rewrite run_frame_loops. reflexivity.
  - reflexivity.
Qed.

End Loops.

(* ===================================================================== *)
(** ** Hover *)
(* ===================================================================== *)

Section Hovering.
Import Three HeapDefs HeapFacts MarkerDefs MarkerFacts Markers.

(** C7, as the spec has it, fails: hovering an index that has no marker
    still records the index and switches the cursor. *)
Lemma hover_without_marker_changes_state :
  ~ (forall (index : Z) (isHovered : bool) (w : Hover),
       array_get (markers (state w)) index = None ->
       handleMarkerHover index isHovered w = Returned w).
Proof.
  intros H. specialize (H 0%Z true Samples.bare_hover eq_refl).
  unfold handleMarkerHover in H. simpl in H. discriminate H.
Qed.

(** C7, amended. For an index that has no marker, [handleMarkerHover]
    returns without error and leaves the heap (so every material colour) and
    the marker collection as they were; it still records the index (or
    clears the record) and sets the cursor ("pointer" or "auto"). *)
Theorem hover_without_marker (index : Z) (isHovered : bool) (w : Hover) :
  array_get (markers (state w)) index = None ->
  handleMarkerHover index isHovered w =
    Returned {| heap := heap w;
                state := {| markers := markers (state w);
                            hoveredMarker := if isHovered then Some index else None |};
                cursor := if isHovered then "pointer" else "auto" |}.
Proof.
  intros Hnone. unfold handleMarkerHover.
  destruct isHovered; cbn [markers]; rewrite Hnone; reflexivity.
Qed.

Lemma hover_without_marker_witness :
  array_get (markers (state Samples.built_hover)) 2 = None /\
  handleMarkerHover 2 true Samples.built_hover =
    Returned {| heap := heap Samples.built_hover;
                state := {| markers := markers (state Samples.built_hover);
                            hoveredMarker := Some 2%Z |};
                cursor := "pointer" |}.
Proof.
  split; [reflexivity|]. apply (hover_without_marker 2 true Samples.built_hover).
  reflexivity.
Defined.

Lemma recolor_marker_ok (h : Heap) m c :
  marker_ok h m ->
  exists sp rest g mat p r cs,
    childrenOf h m = sp :: rest /\
    h !! sp = Some {| data := Mesh g mat; position := p; rotation_y := r; children := cs |} /\
    recolor m c h = Some (alter (set_data (Mesh g (set_color c mat))) sp h).
Proof.
  intros (om & sp & rest & os & Hm & Km & Cm & Hs & Ks).
  destruct os as [d p r cs]. unfold kind in Ks. simpl in Ks.
  destruct d as [| |g mat| | |]; try discriminate.
  exists sp, rest, g, mat, p, r, cs. unfold recolor, childrenOf.
  rewrite Hm, Cm, Hs. auto.
Qed.

Lemma set_color_same mat : set_color (color mat) mat = mat.
Proof. by destruct mat. Qed.

(** C8. For an index that has a marker (a group whose first child is its
    sphere, as every marker of a rebuild is:
    [MarkerFacts.createMarkers_markers_ok]), hovering and then un-hovering
    returns twice without error and leaves the colour of the marker's sphere
    at #d5aa0f, the hovered-index record absent and the cursor at "auto"
    (in between the sphere is #FFC857); the marker collection is untouched,
    and when the colour, the record and the cursor had these values before,
    the whole state is as it was. *)
Theorem hover_round_trip (index : Z) (m : nat) (w : Hover) :
  array_get (markers (state w)) index = Some m ->
  marker_ok (heap w) m ->
  exists w1 w2,
    handleMarkerHover index true w = Returned w1 /\
    handleMarkerHover index false w1 = Returned w2 /\
    sphere_color (heap w1) m = Some "#FFC857"%string /\
    hoveredMarker (state w1) = Some index /\
    sphere_color (heap w2) m = Some "#d5aa0f"%string /\
    hoveredMarker (state w2) = None /\
    cursor w2 = "auto"%string /\
    markers (state w2) = markers (state w) /\
    (sphere_color (heap w) m = Some "#d5aa0f"%string ->
     hoveredMarker (state w) = None -> cursor w = "auto"%string -> w2 = w).
Proof.
  intros Hget Hok.
  destruct (recolor_marker_ok (heap w) m "#FFC857" Hok)
    as (sp & rest & g & mat & p & r & cs & Cm & Hs & Hre).
  set (h1 := alter (set_data (Mesh g (set_color "#FFC857" mat))) sp (heap w)) in *.
  assert (Hs1 : h1 !! sp =
            Some {| data := Mesh g (set_color "#FFC857" mat); position := p;
                    rotation_y := r; children := cs |}).
  { unfold h1. by rewrite list_lookup_alter_eq, Hs. }
  assert (Hm : m <> sp).
  { destruct Hok as (om & sp' & rest' & os & Hm & Km & Cm' & _).
    intros ->. rewrite Hm in Hs. injection Hs as ->. discriminate Km. }
  assert (C1 : childrenOf h1 m = sp :: rest).
  { unfold h1, childrenOf. by rewrite list_lookup_alter_ne. }
  assert (Hre1 : recolor m "#d5aa0f" h1
            = Some (alter (set_data (Mesh g (set_color "#d5aa0f" mat))) sp h1)).
  { unfold recolor. rewrite C1, Hs1. done. }
  set (h2 := alter (set_data (Mesh g (set_color "#d5aa0f" mat))) sp h1) in *.
  assert (Hs2 : h2 !! sp =
            Some {| data := Mesh g (set_color "#d5aa0f" mat); position := p;
                    rotation_y := r; children := cs |}).
  { unfold h2. by rewrite list_lookup_alter_eq, Hs1. }
  assert (C2 : childrenOf h2 m = sp :: rest).
  { unfold h2, childrenOf. rewrite list_lookup_alter_ne by done. exact C1. }
  exists {| heap := h1;
            state := {| markers := markers (state w); hoveredMarker := Some index |};
            cursor := "pointer" |},
         {| heap := h2;
            state := {| markers := markers (state w); hoveredMarker := None |};
            cursor := "auto" |}.
  split_and!.
  - unfold handleMarkerHover. cbn [markers]. by rewrite Hget, Hre.
  - unfold handleMarkerHover. cbn [markers state heap]. by rewrite Hget, Hre1.
  - unfold sphere_color. cbn [heap]. by rewrite C1, Hs1.
  - reflexivity.
  - unfold sphere_color. cbn [heap]. by rewrite C2, Hs2.
  - reflexivity.
  - reflexivity.
  - reflexivity.
  - intros Hcol Hhov Hcur. destruct w as [h [ms hov] cur]. simpl in *. subst hov cur.
    f_equal. unfold sphere_color in Hcol. rewrite Cm, Hs in Hcol. injection Hcol as Hcol.
    unfold h2, h1. apply list_eq. intros i. destruct (decide (sp = i)) as [<-|Hne].
    + rewrite !list_lookup_alter_eq, Hs. cbn [fmap option_fmap option_map].
      unfold set_data. cbn [data position rotation_y children].
      rewrite <- Hcol, set_color_same. done.
    + by rewrite !list_lookup_alter_ne.
Qed.

Lemma hover_round_trip_witness :
  array_get (markers (state Samples.built_hover)) 1 = Some 5%nat /\
  exists w1 w2,
    handleMarkerHover 1 true Samples.built_hover = Returned w1 /\
    handleMarkerHover 1 false w1 = Returned w2 /\
    sphere_color (heap w2) 5 = Some "#d5aa0f"%string /\
    hoveredMarker (state w2) = None.
Proof.
  split; [reflexivity|].
  destruct (hover_round_trip 1 5 Samples.built_hover) as (w1 & w2 & H1 & H2 & _ & _ & H5 & H6 & _).
  - reflexivity.
  - eexists _, 6%nat, [7%nat], _. split_and!; reflexivity.
  - exists w1, w2. auto.
Defined.

End Hovering.

